(** * tebata: signal-triggered execution of reserved functions

    A shallow embedding of [tebata.go] (package [tebata], the version whose
    [Reserve] validates arity and argument types) together with the part of
    Go's [reflect], [context], [os/signal] and channel semantics the package
    relies on.

    Layout:
    - [reflect]  : run-time types, interface values, [Kind], [AssignableTo]
                   and the checks [Value.Call] makes before entering a function;
    - the call registry: [functionData], [Reserve] and [exec];
    - the dispatcher: the buffered channel, [New], [listen] as the steps of
      its goroutine, signal delivery and [Close];
    - the properties of both. *)

From Stdlib Require Import List Bool Arith PeanoNat Lia.
Import ListNotations.

Set Implicit Arguments.

(* ------------------------------------------------------------------ *)
(** ** Go's [reflect], as far as [tebata.go] uses it *)
(* ------------------------------------------------------------------ *)

Module reflect.

(** [reflect.Kind].  [Invalid] is the kind of the zero [Value], which is
    what [reflect.ValueOf(nil)] returns. *)
Inductive Kind : Type :=
| Invalid | Bool | Int | String | Pointer | Slice | Chan | Interface | Func.

Definition Kind_eqb (a b : Kind) : bool :=
  match a, b with
  | Invalid, Invalid | Bool, Bool | Int, Int | String, String
  | Pointer, Pointer | Slice, Slice | Chan, Chan
  | Interface, Interface | Func, Func => true
  | _, _ => false
  end.

(** [reflect.Type]: a fragment of Go's unnamed types.  [TFunc ins outs v]
    is [func(ins...) outs]; when [v] is set the last element of [ins] is
    the slice type of the variadic parameter, as [Type.In] reports it. *)
#[local] Unset Elimination Schemes.
Inductive Type_ : Type :=
| TBool | TInt | TString
| TPtr (elem : Type_)
| TSlice (elem : Type_)
| TChan (elem : Type_)
| TAny
| TFunc (ins outs : list Type_) (variadic : bool).
#[local] Set Elimination Schemes.

Definition KindOfType (t : Type_) : Kind :=
  match t with
  | TBool => Bool | TInt => Int | TString => String
  | TPtr _ => Pointer | TSlice _ => Slice | TChan _ => Chan
  | TAny => Interface | TFunc _ _ _ => Func
  end.

(** Type identity. *)
Fixpoint Type_eqb (a b : Type_) {struct a} : bool :=
  let fix all2 (l1 l2 : list Type_) {struct l1} : bool :=
    match l1, l2 with
    | [], [] => true
    | x :: xs, y :: ys => Type_eqb x y && all2 xs ys
    | _, _ => false
    end in
  match a, b with
  | TBool, TBool | TInt, TInt | TString, TString | TAny, TAny => true
  | TPtr x, TPtr y | TSlice x, TSlice y | TChan x, TChan y => Type_eqb x y
  | TFunc i1 o1 v1, TFunc i2 o2 v2 =>
      all2 i1 i2 && all2 o1 o2 && Bool.eqb v1 v2
  | _, _ => false
  end.

(** [v.AssignableTo(t)] on this fragment (no named types, one interface
    type, the empty one): identical types, or [t] is [interface{}], which
    every type implements. *)
Definition AssignableTo (v t : Type_) : bool :=
  Type_eqb v t || match t with TAny => true | _ => false end.

(** [t.NumIn()]; Go panics when [t] is not a function type, and
    [Reserve] only asks after its [Kind] test. *)
Definition NumIn (t : Type_) : nat :=
  match t with
  | TFunc ins _ _ => length ins
  | _ => 0
  end.

(** [t.In(i)]; [None] stands for Go's out-of-range panic. *)
Definition In_ (t : Type_) (i : nat) : option Type_ :=
  match t with
  | TFunc ins _ _ => nth_error ins i
  | _ => None
  end.

Definition IsVariadic (t : Type_) : bool :=
  match t with
  | TFunc _ _ v => v
  | _ => false
  end.

(** [t.Elem()] of a slice, pointer or channel type. *)
Definition Elem (t : Type_) : option Type_ :=
  match t with
  | TPtr e | TSlice e | TChan e => Some e
  | _ => None
  end.

(** A non-nil interface value: its dynamic type and its data word.  For a
    function the word is the code it points to, [None] being a nil func;
    for other kinds it is an opaque representation of the datum. *)
Record iface : Type := Iface { typ : Type_; word : option nat }.

(** Go's [any]: [None] is the nil interface value. *)
Definition any : Type := option iface.

(** [reflect.Value]. *)
Inductive Value : Type :=
| ZeroValue
| Val (t : Type_) (w : option nat).

Definition ValueOf (x : any) : Value :=
  match x with
  | None => ZeroValue
  | Some i => Val (typ i) (word i)
  end.

Definition KindOf (v : Value) : Kind :=
  match v with
  | ZeroValue => Invalid
  | Val t _ => KindOfType t
  end.

(** [v.Type()]; Go panics on the zero Value ([None]). *)
Definition TypeOfValue (v : Value) : option Type_ :=
  match v with
  | ZeroValue => None
  | Val t _ => Some t
  end.

(** The panics [Value.Call] can raise by itself, before the callee runs,
    in the order [reflect/value.go] tests for them. *)
Inductive CallPanic : Type :=
| CallOfNonFunction
| CallOfNilFunction
| TooFewInputArguments
| TooManyInputArguments
| ZeroValueArgument
| ArgumentNotAssignable (i : nat)
| VariadicNotAssignable (i : nat).

(** First index [i < n] at which [in_[i].Type()] is not assignable to
    [t.In(i)]. *)
Fixpoint first_unassignable (t : Type_) (in_ : list Value) (i n : nat)
  : option nat :=
  match n with
  | 0 => None
  | S n' =>
      match nth_error in_ i, In_ t i with
      | Some (Val xt _), Some targ =>
          if AssignableTo xt targ
          then first_unassignable t in_ (S i) n'
          else Some i
      | _, _ => Some i
      end
  end.

(** First of the values packed into the variadic slice whose type is not
    assignable to the slice's element type. *)
Fixpoint first_bad_variadic (elem : Type_) (rest : list Value) (i : nat)
  : option nat :=
  match rest with
  | [] => None
  | Val xt _ :: rest' =>
      if AssignableTo xt elem
      then first_bad_variadic elem rest' (S i)
      else Some i
  | ZeroValue :: _ => Some i
  end.

(** The checks of [v.Call(in)]; [None] when control reaches the callee. *)
Definition call_checks (v : Value) (in_ : list Value) : option CallPanic :=
  match v with
  | Val (TFunc ins outs variadic as t) fn =>
      match fn with
      | None => Some CallOfNilFunction
      | Some _ =>
          let n := if variadic then NumIn t - 1 else NumIn t in
          if length in_ <? n then Some TooFewInputArguments
          else if negb variadic && (n <? length in_)
          then Some TooManyInputArguments
          else if existsb (fun x => Kind_eqb (KindOf x) Invalid) in_
          then Some ZeroValueArgument
          else
            match first_unassignable t in_ 0 n with
            | Some i => Some (ArgumentNotAssignable i)
            | None =>
                if variadic then
                  match In_ t n with
                  | Some st =>
                      match Elem st with
                      | Some elem =>
                          match first_bad_variadic elem (skipn n in_) n with
                          | Some i => Some (VariadicNotAssignable i)
                          | None => None
                          end
                      | None => None
                      end
                  | None => None
                  end
                else None
            end
      end
  | _ => Some CallOfNonFunction
  end.

End reflect.

(* ------------------------------------------------------------------ *)
(** ** The call registry: [functionData], [Reserve], [exec] *)
(* ------------------------------------------------------------------ *)

(** The package's error values.  [ErrInvalidArgs] is declared by the
    package and returned nowhere. *)
Inductive error : Type :=
| ErrInvalidFunction
| ErrInvalidArgs
| ErrTypeMismatch
| ErrTooFewArgs
| ErrTooManyArgs.

(** [type functionData struct { function any; args []any }] *)
Record functionData : Type := FunctionData {
  function : reflect.any;
  args : list reflect.any
}.

(** One pass of [Reserve]'s type loop at index [i]: a nil argument is
    skipped, any other must have a type assignable to [funcType.In(i)]. *)
Definition arg_matches (funcType : reflect.Type_) (args : list reflect.any)
           (i : nat) : bool :=
  match nth_error args i, reflect.In_ funcType i with
  | Some None, Some _ => true
  | Some (Some a), Some paramType =>
      reflect.AssignableTo (reflect.typ a) paramType
  | _, _ => false
  end.

(** [for i := 0; i < numParams; i++ { ... return ErrTypeMismatch ... }]:
    the loop leaves with the error at the first index that does not match. *)
Definition args_match (funcType : reflect.Type_) (args : list reflect.any)
           (numParams : nat) : bool :=
  forallb (arg_matches funcType args) (seq 0 numParams).

(** [func (s *Tebata) Reserve(function any, args ...any) error], on the
    field it reads and writes.  It runs under [s.mutex] from entry to
    return; the result pairs the slice after the call with the error
    ([None] is Go's nil error). *)
Definition Reserve (reservedFunctions : list functionData)
           (function : reflect.any) (args : list reflect.any)
  : list functionData * option error :=
  let funcValue := reflect.ValueOf function in
  if negb (reflect.Kind_eqb (reflect.KindOf funcValue) reflect.Func)
  then (reservedFunctions, Some ErrInvalidFunction)
  else
    match reflect.TypeOfValue funcValue with
    | None => (reservedFunctions, Some ErrInvalidFunction)
    | Some funcType =>
        let numParams := reflect.NumIn funcType in
        let numArgs := length args in
        if numArgs <? numParams
        then (reservedFunctions, Some ErrTooFewArgs)
        else if numParams <? numArgs
        then (reservedFunctions, Some ErrTooManyArgs)
        else if negb (args_match funcType args numParams)
        then (reservedFunctions, Some ErrTypeMismatch)
        else (reservedFunctions ++ [FunctionData function args], None)
    end.

(** How a reflective call, and a dispatch, can end. *)
Inductive outcome : Type :=
| Returned
| ReflectPanic (p : reflect.CallPanic)
| CallbackPanic.

(** One entry into a callee: the function value and the values passed. *)
Definition invocation : Type := (reflect.Value * list reflect.Value)%type.

Definition invocation_of (fd : functionData) : invocation :=
  (reflect.ValueOf (function fd), map reflect.ValueOf (args fd)).

Section Dispatch.

(** The host program: its state, and what running the code behind a
    function value does to it.  The boolean tells whether the callee
    panicked instead of returning.  Callees are taken not to call back into
    the Tebata they are reserved on. *)
Variable World : Type.
Variable callee : nat -> list reflect.Value -> World -> World * bool.

(** [function.Call(args)]: the state after the call, the entry into the
    callee if there was one, and how the call ended. *)
Definition Call (fn : reflect.Value) (in_ : list reflect.Value) (w : World)
  : World * list invocation * outcome :=
  match reflect.call_checks fn in_ with
  | Some p => (w, [], ReflectPanic p)
  | None =>
      match fn with
      | reflect.Val _ (Some code) =>
          let (w', panicked) := callee code in_ w in
          (w', [(fn, in_)], if panicked then CallbackPanic else Returned)
      | _ => (w, [], ReflectPanic reflect.CallOfNonFunction)
      end
  end.

(** The body of [exec]: [for _, fd := range s.reservedFunctions].  A panic
    is not recovered, so it ends the loop. *)
Fixpoint exec_range (fds : list functionData) (w : World)
  : World * list invocation * outcome :=
  match fds with
  | [] => (w, [], Returned)
  | fd :: rest =>
      let function := reflect.ValueOf (function fd) in
      let args := map reflect.ValueOf (args fd) in
      match Call function args w with
      | (w1, made, Returned) =>
          match exec_range rest w1 with
          | (w2, made', o) => (w2, made ++ made', o)
          end
      | (w1, made, o) => (w1, made, o)
      end
  end.

(** [func (s *Tebata) exec()], under [s.mutex] for its whole run. *)
Definition exec (reservedFunctions : list functionData) (w : World)
  : World * list invocation * outcome :=
  exec_range reservedFunctions w.

End Dispatch.

(* ------------------------------------------------------------------ *)
(** ** The dispatcher: channel, [New], [listen], signal delivery, [Close] *)
(* ------------------------------------------------------------------ *)

(** [os.Signal], the ones the package's tests and example use. *)
Inductive Signal : Type := SIGHUP | SIGINT | SIGTERM.

Definition Signal_eqb (a b : Signal) : bool :=
  match a, b with
  | SIGHUP, SIGHUP | SIGINT, SIGINT | SIGTERM, SIGTERM => true
  | _, _ => false
  end.

(** A buffered [chan os.Signal]. *)
Record chan : Type := Chan {
  cap : nat;
  buf : list Signal;
  closed : bool
}.

(** [make(chan os.Signal, n)] *)
Definition make_chan (n : nat) : chan := Chan n [] false.

(** The send [os/signal] performs, [select { case c <- sig: default: }]:
    it never blocks, and a value that finds the buffer full is dropped.
    [None] is Go's panic for a send on a closed channel. *)
Definition try_send (c : chan) (sig : Signal) : option chan :=
  if closed c then None
  else if length (buf c) <? cap c
       then Some (Chan (cap c) (buf c ++ [sig]) false)
       else Some c.

(** [<-c] when it can proceed: the oldest buffered value, or the zero value
    at once when the channel is closed and empty.  [None]: it would block. *)
Definition recv (c : chan) : option chan :=
  match buf c with
  | _ :: rest => Some (Chan (cap c) rest (closed c))
  | [] => if closed c then Some c else None
  end.

(** [close(c)]; [None] is Go's panic for closing a closed channel. *)
Definition close (c : chan) : option chan :=
  if closed c then None else Some (Chan (cap c) (buf c) true).

(** [type Tebata struct].  [ctx_done] is the state of [ctx] ([cancel] sets
    it); [mutex] is held by [Reserve] and [exec] from entry to return, which
    the model renders by running each of them as one step. *)
Record Tebata : Type := MkTebata {
  ctx_done : bool;
  signalCh : chan;
  reservedFunctions : list functionData
}.

(** The goroutine started by [go s.listen()]: at its [select], between a
    receive and the return of [exec], or returned. *)
Inductive task : Type := Waiting | Dispatching | Stopped.

(** What brings the program down. *)
Inductive crash : Type :=
| CloseOfClosedChannel
| SendOnClosedChannel
| DispatchPanic (o : outcome)
| KilledBySignal (sig : Signal).

Section Runtime.

Variable World : Type.
Variable callee : nat -> list reflect.Value -> World -> World * bool.

(** A program that owns one Tebata and makes no other use of [os/signal].
    [handlers] is the entry of [os/signal] for [signalCh]: the signals
    [Notify] asked for, [None] once [Stop] removed it.  [calls] and
    [dispatches] record the entries into callees and the runs of [exec] so
    far. *)
Record process : Type := Process {
  tebata : Tebata;
  handlers : option (list Signal);
  listener : task;
  world : World;
  calls : list invocation;
  dispatches : nat;
  crashed : option crash
}.

(** [func New(signals ...os.Signal) *Tebata] *)
Definition New (signals : list Signal) (w : World) : process :=
  Process (MkTebata false (make_chan 1) []) (Some signals) Waiting w [] 0 None.

(** [signal.Notify(c)] with no signal relays all of them. *)
Definition relays (signals : list Signal) (sig : Signal) : bool :=
  match signals with
  | [] => true
  | _ => existsb (Signal_eqb sig) signals
  end.

Definition with_tebata (p : process) (t : Tebata) : process :=
  Process t (handlers p) (listener p) (world p) (calls p) (dispatches p)
          (crashed p).

Definition with_listener (p : process) (l : task) : process :=
  Process (tebata p) (handlers p) l (world p) (calls p) (dispatches p)
          (crashed p).

Definition with_crash (p : process) (c : crash) : process :=
  Process (tebata p) (handlers p) (listener p) (world p) (calls p)
          (dispatches p) (Some c).

Definition with_signalCh (p : process) (c : chan) : process :=
  with_tebata p (MkTebata (ctx_done (tebata p)) c
                          (reservedFunctions (tebata p))).

(** The operating system raises [sig].  A signal [os/signal] relays to the
    channel is sent to it; one it relays to no channel, because [Notify] did
    not ask for it or [Stop] took the channel out, keeps its default action,
    which for SIGHUP, SIGINT and SIGTERM ends the program. *)
Definition raise (sig : Signal) (p : process) : process :=
  match handlers p with
  | Some signals =>
      if relays signals sig then
        match try_send (signalCh (tebata p)) sig with
        | Some c => with_signalCh p c
        | None => with_crash p SendOnClosedChannel
        end
      else with_crash p (KilledBySignal sig)
  | None => with_crash p (KilledBySignal sig)
  end.

(** [s.cancel()]: a second call does nothing. *)
Definition cancel (p : process) : process :=
  with_tebata p (MkTebata true (signalCh (tebata p))
                          (reservedFunctions (tebata p))).

(** [signal.Stop(s.signalCh)] *)
Definition signal_Stop (p : process) : process :=
  Process (tebata p) None (listener p) (world p) (calls p) (dispatches p)
          (crashed p).

(** [func (s *Tebata) Close()]: its three statements in order, taken as
    one step of the program. *)
Definition Close (p : process) : process :=
  let p1 := cancel p in
  let p2 := signal_Stop p1 in
  match close (signalCh (tebata p2)) with
  | Some c => with_signalCh p2 c
  | None => with_crash p2 CloseOfClosedChannel
  end.

(** The cases of the [select] in [listen]. *)
Inductive select_case : Type := CaseSignal | CaseDone.

(** The cases that can proceed.  Go picks one of them by a uniform
    pseudo-random choice; the order of the list means nothing. *)
Definition ready (t : Tebata) : list select_case :=
  (match recv (signalCh t) with Some _ => [CaseSignal] | None => [] end)
  ++ (if ctx_done t then [CaseDone] else []).

(** [listen] takes [case <-s.signalCh]. *)
Definition listen_signal (p : process) : option process :=
  match listener p, recv (signalCh (tebata p)) with
  | Waiting, Some c => Some (with_listener (with_signalCh p c) Dispatching)
  | _, _ => None
  end.

(** [listen] takes [case <-s.ctx.Done()] and returns. *)
Definition listen_done (p : process) : option process :=
  match listener p with
  | Waiting =>
      if ctx_done (tebata p) then Some (with_listener p Stopped) else None
  | _ => None
  end.

(** One pass through the [select] of [listen], on the case Go chose. *)
Definition listen (c : select_case) (p : process) : option process :=
  match c with
  | CaseSignal => listen_signal p
  | CaseDone => listen_done p
  end.

(** [s.exec()] in [listen], then back to the [select]; a panic of the
    dispatch is a panic of the goroutine, which ends the program. *)
Definition listen_exec (p : process) : option process :=
  match listener p with
  | Dispatching =>
      match exec callee (reservedFunctions (tebata p)) (world p) with
      | (w, made, o) =>
          Some (Process (tebata p) (handlers p)
                        (match o with Returned => Waiting | _ => Dispatching end)
                        w (calls p ++ made) (S (dispatches p))
                        (match o with
                         | Returned => None
                         | _ => Some (DispatchPanic o)
                         end))
      end
  | _ => None
  end.

(** [s.Reserve(function, args...)] called by the program; the error goes
    back to the caller. *)
Definition call_Reserve (function : reflect.any) (args : list reflect.any)
           (p : process) : process :=
  with_tebata p
    (MkTebata (ctx_done (tebata p)) (signalCh (tebata p))
              (fst (Reserve (reservedFunctions (tebata p)) function args))).

(** What can happen next. *)
Inductive event : Type :=
| Raise (sig : Signal)
| CallReserve (function : reflect.any) (args : list reflect.any)
| CallClose
| SelectSignal
| SelectDone
| RunExec.

(** One step of the program; [None] when the event cannot happen in [p].
    Once the program has crashed nothing happens any more. *)
Definition fire (e : event) (p : process) : option process :=
  match crashed p with
  | Some _ => None
  | None =>
      match e with
      | Raise sig => Some (raise sig p)
      | CallReserve f a => Some (call_Reserve f a p)
      | CallClose => Some (Close p)
      | SelectSignal => listen_signal p
      | SelectDone => listen_done p
      | RunExec => listen_exec p
      end
  end.

Fixpoint run (es : list event) (p : process) : option process :=
  match es with
  | [] => Some p
  | e :: es' =>
      match fire e p with
      | Some p' => run es' p'
      | None => None
      end
  end.

(** The states a program reaches from [New]. *)
Inductive reachable : process -> Prop :=
| reach_New : forall signals w, reachable (New signals w)
| reach_fire : forall p e p',
    reachable p -> fire e p = Some p' -> reachable p'.

End Runtime.

(* ------------------------------------------------------------------ *)
(** ** Predicates the properties are stated with *)
(* ------------------------------------------------------------------ *)

(** Argument [i] is present, not nil, and its type is not assignable to
    the type of parameter [i]. *)
Definition mismatch_at (funcType : reflect.Type_) (args : list reflect.any)
           (i : nat) : Prop :=
  exists a paramType,
    nth_error args i = Some (Some a) /\
    reflect.In_ funcType i = Some paramType /\
    reflect.AssignableTo (reflect.typ a) paramType = false.

(** The function value [function] has the function type [t]. *)
Definition func_of_type (function : reflect.any) (t : reflect.Type_) : Prop :=
  reflect.TypeOfValue (reflect.ValueOf function) = Some t /\
  reflect.KindOfType t = reflect.Func.

(** The five ways out of [Reserve]. *)
Inductive Reserve_spec (r : list functionData) (function : reflect.any)
          (args : list reflect.any) : list functionData * option error -> Prop :=
| Reserve_invalid :
    reflect.KindOf (reflect.ValueOf function) <> reflect.Func ->
    Reserve_spec r function args (r, Some ErrInvalidFunction)
| Reserve_too_few : forall t,
    func_of_type function t ->
    length args < reflect.NumIn t ->
    Reserve_spec r function args (r, Some ErrTooFewArgs)
| Reserve_too_many : forall t,
    func_of_type function t ->
    reflect.NumIn t < length args ->
    Reserve_spec r function args (r, Some ErrTooManyArgs)
| Reserve_mismatch : forall t,
    func_of_type function t ->
    length args = reflect.NumIn t ->
    args_match t args (reflect.NumIn t) = false ->
    Reserve_spec r function args (r, Some ErrTypeMismatch)
| Reserve_stored : forall t,
    func_of_type function t ->
    length args = reflect.NumIn t ->
    args_match t args (reflect.NumIn t) = true ->
    Reserve_spec r function args (r ++ [FunctionData function args], None).

(** Whether argument [i] is bound to parameter [i] of a function of type
    [t]: a typed argument by assignability, a nil one when [nil_ok] admits
    the parameter's type. *)
Definition arg_bound (nil_ok : reflect.Type_ -> bool) (t : reflect.Type_)
           (args : list reflect.any) (i : nat) : bool :=
  match nth_error args i, reflect.In_ t i with
  | Some None, Some paramType => nil_ok paramType
  | Some (Some a), Some paramType =>
      reflect.AssignableTo (reflect.typ a) paramType
  | _, _ => false
  end.

(** An entry holds a function value with as many bound arguments as it has
    parameters, each of them bound in the sense of [arg_bound]. *)
Definition entry_invariant (nil_ok : reflect.Type_ -> bool)
           (fd : functionData) : bool :=
  match reflect.TypeOfValue (reflect.ValueOf (function fd)) with
  | Some t =>
      reflect.Kind_eqb (reflect.KindOfType t) reflect.Func
      && Nat.eqb (length (args fd)) (reflect.NumIn t)
      && forallb (arg_bound nil_ok t (args fd)) (seq 0 (reflect.NumIn t))
  | None => false
  end.

(** Types with a nil value: pointer, slice, channel, interface, function. *)
Definition reference_like (t : reflect.Type_) : bool :=
  match t with
  | reflect.TPtr _ | reflect.TSlice _ | reflect.TChan _
  | reflect.TAny | reflect.TFunc _ _ _ => true
  | _ => false
  end.

(** The invariant of a reserved call in the words of the specification:
    nil only where the parameter's type is reference-like. *)
Definition invariant_as_specified : functionData -> bool :=
  entry_invariant reference_like.

(** The invariant [Reserve] establishes: nil for a parameter of any type. *)
Definition invariant_of_Reserve : functionData -> bool :=
  entry_invariant (fun _ => true).

(** No bound argument of the entry is nil. *)
Definition no_nil_args (fd : functionData) : bool :=
  forallb (fun a : reflect.any =>
             match a with Some _ => true | None => false end) (args fd).

(** The callable of the entry is a non-nil function that is not variadic. *)
Definition plain_callable (fd : functionData) : bool :=
  match function fd with
  | Some (reflect.Iface t (Some _)) => negb (reflect.IsVariadic t)
  | _ => false
  end.

(** A dispatch ended inside [reflect], before or between callees. *)
Definition reflect_panicked (o : outcome) : bool :=
  match o with
  | ReflectPanic _ => true
  | _ => false
  end.

(** What holds of every state of a program: the channel keeps the capacity
    [New] gave it and never holds more, a closed channel has no handler
    left, and every reserved entry is as [Reserve] stores them. *)
Definition process_invariant (World : Type) (p : process World) : Prop :=
  cap (signalCh (tebata p)) = 1 /\
  length (buf (signalCh (tebata p))) <= 1 /\
  (closed (signalCh (tebata p)) = true -> handlers p = None) /\
  forallb invariant_of_Reserve (reservedFunctions (tebata p)) = true.

(* ------------------------------------------------------------------ *)
(** ** Sample values: the functions and arguments of the package's tests
       and example program *)
(* ------------------------------------------------------------------ *)

Module Sample.
Import reflect.

Definition int_ (n : nat) : any := Some (Iface TInt (Some n)).
Definition string_ (n : nat) : any := Some (Iface TString (Some n)).
Definition ints (n : nat) : any := Some (Iface (TSlice TInt) (Some n)).

(** [func sum(firstArg, secondArg int)] and [func hello()] of the example. *)
Definition sum : any := Some (Iface (TFunc [TInt; TInt] [] false) (Some 0)).
Definition hello : any := Some (Iface (TFunc [] [] false) (Some 1)).

(** The function literals of [TestStatus_Reserve]. *)
Definition fn_string : any := Some (Iface (TFunc [TString] [] false) (Some 2)).
Definition fn_string_int : any :=
  Some (Iface (TFunc [TString; TInt] [] false) (Some 3)).
Definition fn_ptr_string : any :=
  Some (Iface (TFunc [TPtr TString] [] false) (Some 4)).

(** [func(a int) {}], [func(xs ...int) {}] and [var f func()]. *)
Definition fn_int : any := Some (Iface (TFunc [TInt] [] false) (Some 5)).
Definition fn_variadic : any :=
  Some (Iface (TFunc [TSlice TInt] [] true) (Some 6)).
Definition fn_nil : any := Some (Iface (TFunc [] [] false) None).

(** A host whose callees all return, and one whose callee 7 panics. *)
Definition quiet (code : nat) (in_ : list Value) (w : unit) : unit * bool :=
  (w, false).

End Sample.

(* ------------------------------------------------------------------ *)
(** ** The version of the package whose [Reserve] does not validate *)
(* ------------------------------------------------------------------ *)

(** [tebata.go] as it was before [Reserve] compared arguments with
    parameters; [New], [listen], [exec] and [Close] are the same text. *)
Module Unchecked.

(** [func (s *Tebata) Reserve(function any, args ...any) error] *)
Definition Reserve (reservedFunctions : list functionData)
           (function : reflect.any) (args : list reflect.any)
  : list functionData * option error :=
  if negb (reflect.Kind_eqb (reflect.KindOf (reflect.ValueOf function))
                            reflect.Func)
  then (reservedFunctions, Some ErrInvalidFunction)
  else (reservedFunctions ++ [FunctionData function args], None).

End Unchecked.

(* ------------------------------------------------------------------ *)
(** ** The first version of the package: [status] and its WaitGroup *)
(* ------------------------------------------------------------------ *)

Module Status.

(** The errors of this version are built on the spot by [errors.New]:
    "Invalid function argument. Expect Type: func", "Invalid args
    argument. Expect Type: slice" and "Invalid function arguments.
    arguments type: ...". *)
Inductive error_message : Type :=
| InvalidFunctionArgument
| InvalidArgsArgument
| InvalidFunctionArguments.

(** [type status struct].  [wg] is the counter of the WaitGroup. *)
Record status : Type := MkStatus {
  wg : nat;
  signalCh : chan;
  ReservedFunction : list functionData
}.

(** The type of [args ...interface{}] and of [functionData.args]. *)
Definition args_type : reflect.Type_ := reflect.TSlice reflect.TAny.

(** [convertedSlice[i] = x] *)
Fixpoint set_index (convertedSlice : list reflect.any) (i : nat)
         (x : reflect.any) : list reflect.any :=
  match convertedSlice, i with
  | [], _ => []
  | _ :: rest, 0 => x :: rest
  | y :: rest, S i' => y :: set_index rest i' x
  end.

(** [for i := 0; i < length; i++ { convertedSlice[i] = a.Index(i).Interface() }]
    with [n] passes left; [a.Index(i)] out of range would panic. *)
Fixpoint convert_loop (a convertedSlice : list reflect.any) (i n : nat)
  : list reflect.any :=
  match n with
  | 0 => convertedSlice
  | S n' =>
      match nth_error a i with
      | Some x => convert_loop a (set_index convertedSlice i x) (S i) n'
      | None => convertedSlice
      end
  end.

(** [func convertInterfaceSlice(args interface{}) []interface{}], on the
    [[]interface{}] it is called with. *)
Definition convertInterfaceSlice (args : list reflect.any)
  : list reflect.any :=
  let length := length args in
  let convertedSlice := repeat (None : reflect.any) length in
  convert_loop args convertedSlice 0 length.

(** [func (s *status) Reserve(function interface{}, args ...interface{}) error] *)
Definition Reserve (s : status) (function : reflect.any)
           (args : list reflect.any) : status * option error_message :=
  if negb (reflect.Kind_eqb (reflect.KindOf (reflect.ValueOf function))
                            reflect.Func)
  then (s, Some InvalidFunctionArgument)
  else if negb (reflect.Kind_eqb (reflect.KindOfType args_type) reflect.Slice)
  then (s, Some InvalidArgsArgument)
  else (MkStatus (wg s) (signalCh s)
                 (ReservedFunction s
                  ++ [FunctionData function (convertInterfaceSlice args)]),
        None).

(** [signal.Notify] relaying one raised signal into [s.signalCh]; the
    channel of this version is never closed. *)
Definition notify (signals : list Signal) (s : status) (sig : Signal)
  : status :=
  if relays signals sig then
    match try_send (signalCh s) sig with
    | Some c => MkStatus (wg s) c (ReservedFunction s)
    | None => s
    end
  else s.

(** [func (s *status) listen()]: one receive, then [s.wg.Done()].  While
    the receive blocks the signals of [raised] arrive one after the other;
    the result pairs the status with the signals not yet raised, and is
    [None] when the receive is still blocked after all of them. *)
Fixpoint listen (signals : list Signal) (s : status) (raised : list Signal)
  : option (status * list Signal) :=
  match recv (signalCh s) with
  | Some c => Some (MkStatus (wg s - 1) c (ReservedFunction s), raised)
  | None =>
      match raised with
      | [] => None
      | sig :: rest => listen signals (notify signals s sig) rest
      end
  end.

(** [func New(signals ...os.Signal) *status]: it calls [listen] itself and
    so returns only once a signal was received. *)
Definition New (signals : list Signal) (raised : list Signal)
  : option (status * list Signal) :=
  let s := MkStatus 0 (make_chan 1) [] in
  let s := MkStatus (wg s + 1) (signalCh s) (ReservedFunction s) in
  listen signals s raised.

(** Calls of [Reserve] one after the other, their errors dropped. *)
Definition Reserve_all (s : status)
           (requests : list (reflect.any * list reflect.any)) : status :=
  fold_left (fun s request => fst (Reserve s (fst request) (snd request)))
            requests s.

Section Exec.

Variable World : Type.
Variable callee : nat -> list reflect.Value -> World -> World * bool.

(** The loop of [Exec], with its [switch argsKind]. *)
Fixpoint Exec_range (fds : list functionData) (w : World)
  : World * list invocation * outcome * option error_message :=
  match fds with
  | [] => (w, [], Returned, None)
  | rf :: rest =>
      let argsKind := reflect.KindOfType args_type in
      if reflect.Kind_eqb argsKind reflect.Slice then
        let argsValue := map reflect.ValueOf (args rf) in
        let function := reflect.ValueOf (function rf) in
        match Call callee function argsValue w with
        | (w1, made, Returned) =>
            match Exec_range rest w1 with
            | (w2, made', o, e) => (w2, made ++ made', o, e)
            end
        | (w1, made, o) => (w1, made, o, None)
        end
      else (w, [], Returned, Some InvalidFunctionArguments)
  end.

(** [func (s *status) Exec() error]; [None] when [s.wg.Wait()] blocks. *)
Definition Exec (s : status) (w : World)
  : option (World * list invocation * outcome * option error_message) :=
  if Nat.eqb (wg s) 0
  then Some (Exec_range (ReservedFunction s) w)
  else None.

End Exec.

End Status.

(* ------------------------------------------------------------------ *)
(** ** The example program, [example/main.go] *)
(* ------------------------------------------------------------------ *)

Module Example.

(** [os.Exit], a [func(code int)]. *)
Definition os_Exit : reflect.any :=
  Some (reflect.Iface (reflect.TFunc [reflect.TInt] [] false) (Some 8)).

(** The calls of [main] after [tebata.New(syscall.SIGINT, syscall.SIGTERM)];
    it drops the errors and then loops for ever. *)
Definition main : list event :=
  [CallReserve Sample.sum [Sample.int_ 1; Sample.int_ 2];
   CallReserve Sample.hello [];
   CallReserve os_Exit [Sample.int_ 0]].

End Example.

(* ------------------------------------------------------------------ *)
(** ** Measures on runs *)
(* ------------------------------------------------------------------ *)

(** The [Raise] events of [es] whose signal [Notify] was asked to relay. *)
Fixpoint relayed (signals : list Signal) (es : list event) : nat :=
  match es with
  | [] => 0
  | Raise sig :: es' =>
      (if relays signals sig then 1 else 0) + relayed signals es'
  | _ :: es' => relayed signals es'
  end.

(** The calls of [Reserve] in [es]. *)
Fixpoint reserves (es : list event) : nat :=
  match es with
  | [] => 0
  | CallReserve _ _ :: es' => S (reserves es')
  | _ :: es' => reserves es'
  end.

(** No [Close] is called in [es]. *)
Fixpoint never_closes (es : list event) : bool :=
  match es with
  | [] => true
  | CallClose :: _ => false
  | _ :: es' => never_closes es'
  end.

(** Notifications received or waiting, and dispatches begun or run. *)
Definition owed (World : Type) (p : process World) : nat :=
  dispatches p + length (buf (signalCh (tebata p)))
  + match crashed p, listener p with
    | None, Dispatching => 1
    | _, _ => 0
    end.

(* ------------------------------------------------------------------ *)
(** ** Properties of [Reserve] *)
(* ------------------------------------------------------------------ *)

Lemma Kind_eqb_eq : forall a b, reflect.Kind_eqb a b = true <-> a = b.
Proof.
  intros a b; split.
  - destruct a, b; simpl; intro H; try reflexivity; discriminate H.
  - intros ->; destruct b; reflexivity.
Qed.

Lemma Reserve_cases : forall r function args,
  Reserve_spec r function args (Reserve r function args).
Proof.
  intros r function args. unfold Reserve.
  destruct (reflect.Kind_eqb (reflect.KindOf (reflect.ValueOf function))
                             reflect.Func) eqn:Hk; simpl.
  - apply Kind_eqb_eq in Hk.
    destruct function as [[t w]|]; simpl in *; [|discriminate Hk].
    assert (Hf : func_of_type (Some (reflect.Iface t w)) t) by (split; auto).
    destruct (length args <? reflect.NumIn t) eqn:Hlt.
    + apply Nat.ltb_lt in Hlt. eapply Reserve_too_few; eauto.
    + apply Nat.ltb_ge in Hlt.
      destruct (reflect.NumIn t <? length args) eqn:Hgt.
      * apply Nat.ltb_lt in Hgt. eapply Reserve_too_many; eauto.
      * apply Nat.ltb_ge in Hgt.
        assert (Hlen : length args = reflect.NumIn t) by lia.
        destruct (args_match t args (reflect.NumIn t)) eqn:Hm; simpl.
        -- eapply Reserve_stored; eauto.
        -- eapply Reserve_mismatch; eauto.
  - apply Reserve_invalid. intro H. apply Kind_eqb_eq in H. congruence.
Qed.

Lemma func_of_type_Kind : forall function t,
  func_of_type function t ->
  reflect.KindOf (reflect.ValueOf function) = reflect.Func.
Proof.
  intros [[t' w]|] t [Ht Hk]; simpl in *; [|discriminate Ht].
  injection Ht as ->. exact Hk.
Qed.

Lemma func_of_type_inj : forall function t1 t2,
  func_of_type function t1 -> func_of_type function t2 -> t1 = t2.
Proof.
  intros function t1 t2 [H1 _] [H2 _]. congruence.
Qed.

Lemma NumIn_In : forall t i,
  i < reflect.NumIn t -> exists paramType, reflect.In_ t i = Some paramType.
Proof.
  intros t i Hi. destruct t; simpl in *; try lia.
  destruct (nth_error ins i) eqn:E; [eauto|].
  apply nth_error_None in E. lia.
Qed.

Lemma arg_matches_false : forall t args i,
  i < reflect.NumIn t -> i < length args ->
  (arg_matches t args i = false <-> mismatch_at t args i).
Proof.
  intros t args i Hi Ha. unfold arg_matches, mismatch_at.
  destruct (NumIn_In t Hi) as [pt Hpt]. rewrite Hpt.
  destruct (nth_error args i) as [[a|]|] eqn:E.
  - split.
    + intro H. exists a, pt. auto.
    + intros (a' & pt' & Ea & Ep & Hn). congruence.
  - split; [discriminate|].
    intros (a' & pt' & Ea & _). discriminate Ea.
  - apply nth_error_None in E. lia.
Qed.

Lemma args_match_false : forall t args,
  length args = reflect.NumIn t ->
  (args_match t args (reflect.NumIn t) = false <->
   exists i, mismatch_at t args i).
Proof.
  intros t args Hlen. unfold args_match. split.
  - intro H.
    destruct (forallb (arg_matches t args) (seq 0 (reflect.NumIn t))) eqn:E;
      [discriminate|].
    assert (Hex : existsb (fun i => negb (arg_matches t args i))
                          (seq 0 (reflect.NumIn t)) = true).
    { clear H. induction (seq 0 (reflect.NumIn t)) as [|x l IH]; simpl in *.
      - discriminate.
      - destruct (arg_matches t args x); simpl in *; auto. }
    apply existsb_exists in Hex. destruct Hex as (i & Hin & Hneg).
    apply in_seq in Hin. exists i.
    apply arg_matches_false; try lia.
    destruct (arg_matches t args i); [discriminate|reflexivity].
  - intros (i & a & pt & Ea & Ep & Hn).
    assert (Hi : i < length args) by (apply nth_error_Some; congruence).
    destruct (forallb (arg_matches t args) (seq 0 (reflect.NumIn t))) eqn:E;
      [|reflexivity].
    rewrite forallb_forall in E.
    specialize (E i). rewrite in_seq in E.
    assert (Hm : arg_matches t args i = true) by (apply E; lia).
    unfold arg_matches in Hm. rewrite Ea, Ep in Hm. congruence.
Qed.

(** C3 (as amended).  [Reserve] returns [ErrTypeMismatch] exactly when the
    callable is a function value, the number of arguments equals its number
    of parameters, and some argument is not nil and has a type that is not
    assignable to the type of its parameter; a nil argument matches a
    parameter of any type. *)
Theorem Reserve_TypeMismatch_iff : forall r function args,
  (snd (Reserve r function args) = Some ErrTypeMismatch <->
   exists t, func_of_type function t /\
             length args = reflect.NumIn t /\
             exists i, mismatch_at t args i)
  /\
  (forall t i, i < reflect.NumIn t -> nth_error args i = Some None ->
               arg_matches t args i = true).
Proof.
  intros r function args. split.
  - split.
    + intro H. destruct (Reserve_cases r function args);
        simpl in H; try discriminate H.
      exists t. split; [assumption|]. split; [assumption|].
      apply args_match_false; assumption.
    + intros (t & Hf & Hlen & Hex).
      apply (args_match_false t args Hlen) in Hex.
      destruct (Reserve_cases r function args) as
        [Hk | t' Hf' Hl | t' Hf' Hl | t' Hf' Hl Hm | t' Hf' Hl Hm]; simpl.
      * exfalso. apply Hk. eapply func_of_type_Kind; eauto.
      * rewrite (func_of_type_inj Hf' Hf) in Hl. lia.
      * rewrite (func_of_type_inj Hf' Hf) in Hl. lia.
      * reflexivity.
      * rewrite (func_of_type_inj Hf' Hf) in Hm. congruence.
  - intros t i Hi Hn. unfold arg_matches. rewrite Hn.
    destruct (NumIn_In t Hi) as [pt ->]. reflexivity.
Qed.

Lemma Reserve_TypeMismatch_iff_witness :
  snd (Reserve [] Sample.fn_string_int [Sample.int_ 123; Sample.string_ 0])
  = Some ErrTypeMismatch.
Proof.
  apply (proj2 (proj1 (@Reserve_TypeMismatch_iff [] Sample.fn_string_int
                         [Sample.int_ 123; Sample.string_ 0]))).
  exists (reflect.TFunc [reflect.TString; reflect.TInt] [] false).
  split; [split; reflexivity|]. split; [reflexivity|].
  exists 0, (reflect.Iface reflect.TInt (Some 123)), reflect.TString.
  repeat split; reflexivity.
Defined.

(** C3, the claim as stated, fails: [func(a string) {}] reserved with
    [(123, "test")] has at index 0 a non-nil argument whose type [int] is
    not assignable to [string], and [Reserve] returns [ErrTooManyArgs]. *)
Lemma Reserve_mismatch_hidden_by_arity :
  mismatch_at (reflect.TFunc [reflect.TString] [] false)
              [Sample.int_ 123; Sample.string_ 0] 0 /\
  snd (Reserve [] Sample.fn_string [Sample.int_ 123; Sample.string_ 0])
  = Some ErrTooManyArgs /\
  snd (Reserve [] Sample.fn_string [Sample.int_ 123; Sample.string_ 0])
  <> Some ErrTypeMismatch.
Proof.
  split; [|split].
  - exists (reflect.Iface reflect.TInt (Some 123)), reflect.TString.
    repeat split; reflexivity.
  - reflexivity.
  - discriminate.
Qed.

(** C4.  For a callable declared with [k] parameters, [Reserve] with [n]
    bound arguments returns [ErrTooFewArgs] whenever [n < k] and
    [ErrTooManyArgs] whenever [n > k]. *)
Theorem Reserve_arity_errors : forall r function t args k n,
  func_of_type function t ->
  reflect.NumIn t = k ->
  length args = n ->
  (n < k -> snd (Reserve r function args) = Some ErrTooFewArgs) /\
  (n > k -> snd (Reserve r function args) = Some ErrTooManyArgs).
Proof.
  intros r function t args k n Hf Hk Hn. subst k n.
  destruct (Reserve_cases r function args) as
    [Hk | t' Hf' Hl | t' Hf' Hl | t' Hf' Hl Hm | t' Hf' Hl Hm]; simpl;
    try (rewrite (func_of_type_inj Hf' Hf) in Hl);
    try (split; intro; first [reflexivity | lia]).
  exfalso. apply Hk. eapply func_of_type_Kind; eauto.
Qed.

Lemma Reserve_arity_errors_witness :
  snd (Reserve [] Sample.fn_string_int [Sample.string_ 0]) = Some ErrTooFewArgs
  /\ snd (Reserve [] Sample.fn_string [Sample.string_ 0; Sample.int_ 123])
     = Some ErrTooManyArgs.
Proof.
  split.
  - apply (@Reserve_arity_errors [] Sample.fn_string_int
             (reflect.TFunc [reflect.TString; reflect.TInt] [] false)
             [Sample.string_ 0] 2 1); try reflexivity.
    + split; reflexivity.
    + lia.
  - apply (@Reserve_arity_errors [] Sample.fn_string
             (reflect.TFunc [reflect.TString] [] false)
             [Sample.string_ 0; Sample.int_ 123] 1 2); try reflexivity.
    + split; reflexivity.
    + lia.
Defined.

(** C5.  When the first argument is not a function value, [Reserve]
    returns [ErrInvalidFunction], whatever the arguments that follow. *)
Theorem Reserve_non_function : forall r function args,
  reflect.KindOf (reflect.ValueOf function) <> reflect.Func ->
  snd (Reserve r function args) = Some ErrInvalidFunction.
Proof.
  intros r function args Hk.
  destruct (Reserve_cases r function args) as
    [Hk' | t Hf Hl | t Hf Hl | t Hf Hl Hm | t Hf Hl Hm]; simpl;
    try reflexivity;
    exfalso; apply Hk; eapply func_of_type_Kind; eauto.
Qed.

Lemma Reserve_non_function_witness :
  snd (Reserve [] (Sample.string_ 0) []) = Some ErrInvalidFunction /\
  snd (Reserve [] None [Sample.int_ 1; None]) = Some ErrInvalidFunction.
Proof.
  split.
  - apply (@Reserve_non_function [] (Sample.string_ 0) []).
    simpl. discriminate.
  - apply (@Reserve_non_function [] None [Sample.int_ 1; None]).
    simpl. discriminate.
Defined.

(** C6.  Whenever [Reserve] returns an error, the reserved functions are
    what they were before the call. *)
Theorem Reserve_error_keeps_registry : forall r function args e,
  snd (Reserve r function args) = Some e ->
  fst (Reserve r function args) = r.
Proof.
  intros r function args e He.
  destruct (Reserve_cases r function args); simpl in *;
    try reflexivity; discriminate He.
Qed.

Lemma Reserve_error_keeps_registry_witness :
  fst (Reserve [FunctionData Sample.hello []] Sample.fn_string_int
               [Sample.int_ 123; Sample.string_ 0])
  = [FunctionData Sample.hello []].
Proof.
  apply (@Reserve_error_keeps_registry [FunctionData Sample.hello []]
           Sample.fn_string_int [Sample.int_ 123; Sample.string_ 0]
           ErrTypeMismatch).
  reflexivity.
Defined.

(* ------------------------------------------------------------------ *)
(** ** Properties of [exec] *)
(* ------------------------------------------------------------------ *)

Section ExecFacts.

Variable World : Type.
Variable callee : nat -> list reflect.Value -> World -> World * bool.

Lemma Call_cases : forall fn in_ w w' made o,
  Call callee fn in_ w = (w', made, o) ->
  (made = [] /\ reflect_panicked o = true /\ w' = w) \/
  (made = [(fn, in_)] /\ reflect_panicked o = false /\
   reflect.call_checks fn in_ = None).
Proof.
  intros fn in_ w w' made o. unfold Call.
  destruct (reflect.call_checks fn in_) as [p|] eqn:Hc.
  - intro H. injection H as <- <- <-. left. auto.
  - destruct fn as [|t [code|]].
    + intro H. injection H as <- <- <-. left. auto.
    + destruct (callee code in_ w) as [w1 panicked].
      intro H. injection H as <- <- <-. right.
      destruct panicked; auto.
    + intro H. injection H as <- <- <-. left. auto.
Qed.

Lemma exec_range_prefix : forall fds w w' made o,
  exec_range callee fds w = (w', made, o) ->
  (exists k, k <= length fds /\ made = map invocation_of (firstn k fds)) /\
  (o = Returned -> made = map invocation_of fds).
Proof.
  induction fds as [|fd rest IH]; intros w w' made o H; simpl in H.
  - injection H as <- <- <-. split; [exists 0; auto | auto].
  - destruct (Call callee (reflect.ValueOf (function fd))
                   (map reflect.ValueOf (args fd)) w)
      as [[w1 m1] o1] eqn:HC.
    destruct (Call_cases _ _ _ HC) as [(Hm & Hp & _) | (Hm & Hp & _)].
    + destruct o1; simpl in Hp; try discriminate Hp.
      injection H as <- <- <-. subst m1. split.
      * exists 0. split; [simpl; lia | reflexivity].
      * discriminate.
    + destruct o1; simpl in Hp; try discriminate Hp.
      * destruct (exec_range callee rest w1) as [[w2 m2] o2] eqn:HR.
        injection H as <- <- <-. subst m1.
        destruct (IH _ _ _ _ HR) as [(k & Hk & Hpre) Hall]. split.
        -- exists (S k). split; [simpl; lia|].
           simpl. unfold invocation_of at 1. rewrite Hpre. reflexivity.
        -- intro Ho. simpl. unfold invocation_of at 1.
           rewrite (Hall Ho). reflexivity.
      * injection H as <- <- <-. subst m1. split.
        -- exists 1. split; [simpl; lia|].
           reflexivity.
        -- discriminate.
Qed.

(** When [Value.Call] passes its own checks on every entry, a dispatch does
    not end inside [reflect]. *)
Lemma exec_range_checks_pass : forall fds w,
  Forall (fun fd => reflect.call_checks (reflect.ValueOf (function fd))
                      (map reflect.ValueOf (args fd)) = None) fds ->
  reflect_panicked (snd (exec_range callee fds w)) = false.
Proof.
  induction fds as [|fd rest IH]; intros w HF; simpl.
  - reflexivity.
  - inversion HF as [|? ? Hfd Hrest]; subst.
    destruct (Call callee (reflect.ValueOf (function fd))
                   (map reflect.ValueOf (args fd)) w)
      as [[w1 m1] o1] eqn:HC.
    destruct (Call_cases _ _ _ HC) as [(Hm & Hp & _) | (Hm & Hp & _)].
    + unfold Call in HC. rewrite Hfd in HC.
      destruct (reflect.ValueOf (function fd)) as [|t [code|]];
        simpl in Hfd; try discriminate Hfd.
      * destruct (callee code (map reflect.ValueOf (args fd)) w).
        injection HC as <- <- <-. discriminate Hm.
      * destruct t; discriminate Hfd.
    + destruct o1; simpl in Hp; try discriminate Hp.
      * specialize (IH w1 Hrest).
        destruct (exec_range callee rest w1) as [[w2 m2] o2]. exact IH.
      * reflexivity.
Qed.

End ExecFacts.

Lemma KindOfType_valid : forall t,
  reflect.Kind_eqb (reflect.KindOfType t) reflect.Invalid = false.
Proof. destruct t; reflexivity. Qed.

Lemma no_zero_values : forall l : list reflect.any,
  forallb (fun a : reflect.any =>
             match a with Some _ => true | None => false end) l = true ->
  existsb (fun x => reflect.Kind_eqb (reflect.KindOf x) reflect.Invalid)
          (map reflect.ValueOf l) = false.
Proof.
  induction l as [|[a|] rest IH]; simpl; intro H.
  - reflexivity.
  - rewrite KindOfType_valid. simpl. auto.
  - discriminate H.
Qed.

Lemma all_assignable : forall t args n i,
  (forall j, i <= j < i + n -> arg_bound (fun _ => true) t args j = true) ->
  forallb (fun a : reflect.any =>
             match a with Some _ => true | None => false end) args = true ->
  reflect.first_unassignable t (map reflect.ValueOf args) i n = None.
Proof.
  intros t args n. induction n as [|n IH]; intros i Hb Hnn; simpl.
  - reflexivity.
  - assert (Hi : arg_bound (fun _ => true) t args i = true)
      by (apply Hb; lia).
    unfold arg_bound in Hi.
    destruct (nth_error args i) as [x|] eqn:Ex; [|discriminate Hi].
    rewrite (map_nth_error reflect.ValueOf _ _ Ex).
    destruct x as [a|].
    + simpl. destruct (reflect.In_ t i) as [pt|]; [|discriminate Hi].
      rewrite Hi. apply IH; [|assumption].
      intros j Hj. apply Hb. lia.
    + rewrite forallb_forall in Hnn.
      specialize (Hnn None (nth_error_In _ _ Ex)). discriminate Hnn.
Qed.

Lemma entry_invariant_inv : forall nil_ok fd,
  entry_invariant nil_ok fd = true ->
  exists t, func_of_type (function fd) t /\
            length (args fd) = reflect.NumIn t /\
            forall i, i < reflect.NumIn t ->
                      arg_bound nil_ok t (args fd) i = true.
Proof.
  intros nil_ok fd H. unfold entry_invariant in H.
  destruct (reflect.TypeOfValue (reflect.ValueOf (function fd)))
    as [t|] eqn:Et; [|discriminate H].
  apply andb_true_iff in H. destruct H as [H Hall].
  apply andb_true_iff in H. destruct H as [Hk Hlen].
  exists t. split; [|split].
  - split; [assumption | apply Kind_eqb_eq; assumption].
  - apply Nat.eqb_eq. assumption.
  - intros i Hi. rewrite forallb_forall in Hall.
    apply Hall. apply in_seq. lia.
Qed.

(** An entry as [Reserve] leaves it, with no nil argument and a non-nil,
    non-variadic callable, passes every check of [Value.Call]. *)
Lemma plain_entry_checks_pass : forall fd,
  invariant_of_Reserve fd = true ->
  no_nil_args fd = true ->
  plain_callable fd = true ->
  reflect.call_checks (reflect.ValueOf (function fd))
                      (map reflect.ValueOf (args fd)) = None.
Proof.
  intros [f a] Hinv Hnn Hpl.
  destruct (entry_invariant_inv _ _ Hinv) as (t & [Ht Hk] & Hlen & Hb).
  unfold plain_callable in Hpl. simpl in *.
  destruct f as [[t' [code|]]|]; try discriminate Hpl.
  simpl in Ht. injection Ht as ->.
  destruct t as [| | | | | | |ins outs variadic]; try discriminate Hk.
  simpl in Hpl. destruct variadic; [discriminate Hpl|].
  unfold reflect.call_checks. cbn [reflect.ValueOf reflect.typ reflect.word].
  rewrite length_map, Hlen, Nat.ltb_irrefl. simpl negb. rewrite andb_true_l.
  unfold no_nil_args in Hnn. simpl in Hnn.
  rewrite (no_zero_values _ Hnn).
  rewrite all_assignable; auto.
  intros j Hj. apply Hb. lia.
Qed.

(* ------------------------------------------------------------------ *)
(** ** Properties of the running program *)
(* ------------------------------------------------------------------ *)

Lemma arg_bound_arg_matches : forall t (l : list reflect.any) i,
  arg_bound (fun _ => true) t l i = arg_matches t l i.
Proof.
  intros t l i. unfold arg_bound, arg_matches.
  destruct (nth_error l i) as [[a|]|]; destruct (reflect.In_ t i);
    reflexivity.
Qed.

Lemma forallb_pointwise : forall (A : Type) (f g : A -> bool) (l : list A),
  (forall x, f x = g x) -> forallb f l = forallb g l.
Proof.
  intros A f g l H. induction l as [|x l IH]; simpl.
  - reflexivity.
  - rewrite H, IH. reflexivity.
Qed.

Lemma Reserve_keeps_invariant : forall r function (l : list reflect.any),
  forallb invariant_of_Reserve r = true ->
  forallb invariant_of_Reserve (fst (Reserve r function l)) = true.
Proof.
  intros r function l Hr.
  destruct (Reserve_cases r function l) as
    [Hk | t Hf Hl | t Hf Hl | t Hf Hl Hm | t [Ht Hk] Hl Hm]; simpl; auto.
  rewrite forallb_app, Hr. simpl. rewrite andb_true_r.
  unfold invariant_of_Reserve, entry_invariant. simpl.
  rewrite Ht, Hk, Hl, Nat.eqb_refl. simpl.
  rewrite (forallb_pointwise _ _ _ (arg_bound_arg_matches t l)).
  exact Hm.
Qed.

Section RuntimeFacts.

Variable World : Type.
Variable callee : nat -> list reflect.Value -> World -> World * bool.

Lemma New_invariant : forall signals (w : World),
  process_invariant (New signals w).
Proof.
  intros signals w. unfold process_invariant. simpl.
  repeat split; auto. discriminate.
Qed.

Lemma fire_invariant : forall e (p p' : process World),
  process_invariant p -> fire callee e p = Some p' -> process_invariant p'.
Proof.
  intros e [[d [n b cl] r] h l w cs k cr] p' (Hcap & Hlen & Hcl & Hr).
  unfold fire. simpl in *. subst n.
  destruct cr as [c|]; [discriminate|].
  destruct e as [sig | f a | | | | ]; intro H.
  - injection H as <-. unfold raise. simpl.
    destruct h as [signals|]; [|repeat split; auto].
    destruct (relays signals sig); [|repeat split; auto].
    unfold try_send. simpl.
    destruct cl; [repeat split; auto|].
    destruct b as [|x b]; simpl in *.
    + unfold process_invariant; simpl. repeat split; auto; discriminate.
    + destruct b; simpl in *; [|lia].
      unfold process_invariant; simpl. repeat split; auto.
  - injection H as <-. unfold process_invariant. simpl.
    repeat split; auto. apply Reserve_keeps_invariant. assumption.
  - injection H as <-. unfold Close, close. simpl.
    destruct cl; unfold process_invariant; simpl; repeat split; auto.
  - unfold listen_signal, recv in H. simpl in H.
    destruct l; try discriminate H.
    destruct b as [|x b]; simpl in *.
    + destruct cl; [|discriminate H]. injection H as <-.
      unfold process_invariant. simpl. repeat split; auto.
    + injection H as <-. unfold process_invariant. simpl.
      repeat split; auto. lia.
  - unfold listen_done in H. simpl in H.
    destruct l; try discriminate H. destruct d; [|discriminate H].
    injection H as <-. unfold process_invariant. simpl. repeat split; auto.
  - unfold listen_exec in H. simpl in H.
    destruct l; try discriminate H.
    destruct (exec callee r w) as [[w1 made] o].
    injection H as <-. unfold process_invariant. simpl. repeat split; auto.
Qed.

Lemma reachable_invariant : forall p : process World,
  reachable callee p -> process_invariant p.
Proof.
  intros p H. induction H as [signals w | p e p' _ IH Hf].
  - apply New_invariant.
  - eapply fire_invariant; eauto.
Qed.

Lemma run_reachable : forall es (p p' : process World),
  reachable callee p -> run callee es p = Some p' -> reachable callee p'.
Proof.
  induction es as [|e es IH]; intros p p' Hp H; simpl in H.
  - injection H as <-. assumption.
  - destruct (fire callee e p) as [p1|] eqn:Hf; [|discriminate H].
    eapply IH; [|eassumption]. eapply reach_fire; eauto.
Qed.


End RuntimeFacts.

(* ------------------------------------------------------------------ *)
(** ** The claims on dispatch and on the reserved entries *)
(* ------------------------------------------------------------------ *)

(** C8 (as amended).  Every entry ever present among the reserved functions
    holds a function value and as many bound arguments as the function has
    parameters, and each bound argument is nil, whatever the type of its
    parameter, or has a type assignable to the type of its parameter. *)
Theorem reserved_entries_invariant :
  forall (World : Type)
         (callee : nat -> list reflect.Value -> World -> World * bool)
         (p : process World),
  reachable callee p ->
  forall fd, In fd (reservedFunctions (tebata p)) ->
  exists t,
    func_of_type (function fd) t /\
    length (args fd) = reflect.NumIn t /\
    forall i, i < reflect.NumIn t ->
      exists paramType,
        reflect.In_ t i = Some paramType /\
        (nth_error (args fd) i = Some None \/
         exists a, nth_error (args fd) i = Some (Some a) /\
                   reflect.AssignableTo (reflect.typ a) paramType = true).
Proof.
  intros World callee p Hp fd Hin.
  destruct (reachable_invariant Hp) as (_ & _ & _ & Hr).
  rewrite forallb_forall in Hr. specialize (Hr fd Hin).
  destruct (entry_invariant_inv _ _ Hr) as (t & Hf & Hlen & Hb).
  exists t. split; [assumption|]. split; [assumption|].
  intros i Hi. specialize (Hb i Hi). unfold arg_bound in Hb.
  destruct (nth_error (args fd) i) as [[a|]|]; try discriminate Hb;
    destruct (reflect.In_ t i) as [pt|]; try discriminate Hb;
    exists pt; split; auto.
  right. exists a. auto.
Qed.

Lemma reserved_entries_invariant_witness :
  exists t,
    func_of_type Sample.sum t /\
    length [Sample.int_ 1; Sample.int_ 2] = reflect.NumIn t /\
    forall i, i < reflect.NumIn t ->
      exists paramType,
        reflect.In_ t i = Some paramType /\
        (nth_error [Sample.int_ 1; Sample.int_ 2] i = Some None \/
         exists a, nth_error [Sample.int_ 1; Sample.int_ 2] i = Some (Some a)
                   /\ reflect.AssignableTo (reflect.typ a) paramType = true).
Proof.
  exact (@reserved_entries_invariant unit Sample.quiet
           (call_Reserve Sample.sum [Sample.int_ 1; Sample.int_ 2]
                         (New [SIGINT; SIGTERM] tt))
           (@reach_fire unit Sample.quiet _
              (CallReserve Sample.sum [Sample.int_ 1; Sample.int_ 2]) _
              (@reach_New unit Sample.quiet [SIGINT; SIGTERM] tt) eq_refl)
           (FunctionData Sample.sum [Sample.int_ 1; Sample.int_ 2])
           (or_introl eq_refl)).
Defined.

(** C8, the claim as stated, fails: [func(a int) {}] reserved with nil is
    stored, and [int] is not a reference-like type. *)
Lemma nil_bound_to_int_parameter :
  Reserve [] Sample.fn_int [None] = ([FunctionData Sample.fn_int [None]], None)
  /\ invariant_as_specified (FunctionData Sample.fn_int [None]) = false
  /\ option_map
       (fun p => forallb invariant_as_specified (reservedFunctions (tebata p)))
       (run Sample.quiet [CallReserve Sample.fn_int [None]]
            (New [SIGINT] tt))
     = Some false.
Proof. repeat split. Qed.

(** Where the validation of [Reserve] is enough: when the reserved entries
    all have only non-nil bound arguments and a non-nil, non-variadic
    callable, the reflective call of each entry is made with exactly as many
    values as the callable has parameters and passes every check of
    [Value.Call], so a dispatch never panics inside [reflect]; and [exec]
    returns on an empty registry. *)
Theorem dispatch_machinery_safe :
  forall (World : Type)
         (callee : nat -> list reflect.Value -> World -> World * bool)
         (p : process World),
  reachable callee p ->
  forallb no_nil_args (reservedFunctions (tebata p)) = true ->
  forallb plain_callable (reservedFunctions (tebata p)) = true ->
  (forall fd, In fd (reservedFunctions (tebata p)) ->
     reflect.call_checks (reflect.ValueOf (function fd))
                         (map reflect.ValueOf (args fd)) = None /\
     exists t, func_of_type (function fd) t /\
               length (map reflect.ValueOf (args fd)) = reflect.NumIn t) /\
  (forall w, reflect_panicked
               (snd (exec callee (reservedFunctions (tebata p)) w)) = false) /\
  (forall w, exec callee [] w = (w, [], Returned)).
Proof.
  intros World callee p Hp Hnn Hpl.
  destruct (reachable_invariant Hp) as (_ & _ & _ & Hr).
  rewrite forallb_forall in Hr, Hnn, Hpl.
  assert (Hchk : forall fd, In fd (reservedFunctions (tebata p)) ->
            reflect.call_checks (reflect.ValueOf (function fd))
                                (map reflect.ValueOf (args fd)) = None).
  { intros fd Hin. apply plain_entry_checks_pass; auto. }
  split; [|split].
  - intros fd Hin. split; [auto|].
    destruct (entry_invariant_inv _ _ (Hr fd Hin)) as (t & Hf & Hlen & _).
    exists t. split; [assumption|]. rewrite length_map. assumption.
  - intro w. unfold exec. apply exec_range_checks_pass.
    apply Forall_forall. assumption.
  - reflexivity.
Qed.

Lemma dispatch_machinery_safe_witness :
  reflect_panicked
    (snd (exec Sample.quiet
               [FunctionData Sample.sum [Sample.int_ 1; Sample.int_ 2];
                FunctionData Sample.hello []] tt)) = false.
Proof.
  apply (proj1 (proj2
    (@dispatch_machinery_safe unit Sample.quiet
       (call_Reserve Sample.hello []
          (call_Reserve Sample.sum [Sample.int_ 1; Sample.int_ 2]
                        (New [SIGINT; SIGTERM] tt)))
       (@reach_fire unit Sample.quiet _
          (CallReserve Sample.hello []) _
          (@reach_fire unit Sample.quiet _
             (CallReserve Sample.sum [Sample.int_ 1; Sample.int_ 2]) _
             (@reach_New unit Sample.quiet [SIGINT; SIGTERM] tt) eq_refl)
          eq_refl)
       eq_refl eq_refl)) tt).
Defined.

(** C10.  What the code does where the claim asks for a dispatch that
    cannot fail outside the callbacks: [func(xs ...int) {}] reserved with a
    [[]int] is accepted by [Reserve], none of its arguments is nil, and the
    dispatch panics in [Value.Call], which cannot use [[]int] as [int]; a
    nil [func()] is accepted likewise and panics in [Value.Call] as well. *)
Theorem variadic_entry_panics_in_reflect :
  Reserve [] Sample.fn_variadic [Sample.ints 0]
  = ([FunctionData Sample.fn_variadic [Sample.ints 0]], None) /\
  no_nil_args (FunctionData Sample.fn_variadic [Sample.ints 0]) = true /\
  exec Sample.quiet [FunctionData Sample.fn_variadic [Sample.ints 0]] tt
  = (tt, [], ReflectPanic (reflect.VariadicNotAssignable 0)) /\
  Reserve [] Sample.fn_nil [] = ([FunctionData Sample.fn_nil []], None) /\
  exec Sample.quiet [FunctionData Sample.fn_nil []] tt
  = (tt, [], ReflectPanic reflect.CallOfNilFunction).
Proof. repeat split. Qed.

(* ------------------------------------------------------------------ *)
(** ** The claims on the listener, the queue and [Close] *)
(* ------------------------------------------------------------------ *)

(** [Close] on a Tebata whose channel is closed already panics. *)
Lemma Close_closed_channel : forall (World : Type) (p : process World),
  closed (signalCh (tebata p)) = true ->
  crashed (Close p) = Some CloseOfClosedChannel.
Proof.
  intros World [[d [n b cl] r] h l w cs k cr] H. simpl in H. subst cl.
  reflexivity.
Qed.

(** The first [Close] cancels the context, removes the handler and closes
    the channel. *)
Lemma Close_open_channel : forall (World : Type) (p : process World),
  closed (signalCh (tebata p)) = false ->
  ctx_done (tebata (Close p)) = true /\
  handlers (Close p) = None /\
  closed (signalCh (tebata (Close p))) = true /\
  crashed (Close p) = crashed p.
Proof.
  intros World [[d [n b cl] r] h l w cs k cr] H. simpl in H. subst cl.
  repeat split.
Qed.

(** At the [select], a case can be taken exactly when it is ready. *)
Lemma ready_listen : forall (World : Type) (p : process World) c,
  listener p = Waiting ->
  (In c (ready (tebata p)) <-> listen c p <> None).
Proof.
  intros World [[d ch r] h l w cs k cr] c Hl. simpl in Hl. subst l.
  unfold ready, listen, listen_signal, listen_done. simpl.
  destruct c, (recv ch), d; simpl; split; intro H;
    try discriminate; try tauto;
    try (destruct H as [H|[H|H]]; try discriminate H; try contradiction);
    try (destruct H as [H|H]; try discriminate H; try contradiction);
    try (exfalso; apply H; reflexivity).
Qed.

(** C2.  What the code does where the claim asks for an idempotent
    [Close]: on [New(SIGINT)] the first [Close] goes through and the second
    panics on [close(s.signalCh)]; and after one [Close], with no signal
    raised at all, the listener can take the receive on the closed channel
    and run a dispatch that enters the reserved callable. *)
Theorem Close_twice_panics :
  crashed (Close (New [SIGINT] tt)) = None /\
  crashed (Close (Close (New [SIGINT] tt))) = Some CloseOfClosedChannel /\
  option_map (fun p => (dispatches p, calls p))
             (run Sample.quiet
                  [CallReserve Sample.hello []; CallClose;
                   SelectSignal; RunExec]
                  (New [SIGINT] tt))
  = Some (1, [invocation_of (FunctionData Sample.hello [])]).
Proof. repeat split. Qed.

(** The [select] of [listen] with both cases ready: each of them can be
    taken.  On the cancellation case the listener stops without draining
    the notification; on the signal case it drains the notification and
    runs a dispatch. *)
Theorem select_has_no_priority :
  forall (World : Type)
         (callee : nat -> list reflect.Value -> World -> World * bool)
         (p : process World),
  crashed p = None ->
  listener p = Waiting ->
  buf (signalCh (tebata p)) <> [] ->
  ctx_done (tebata p) = true ->
  ready (tebata p) = [CaseSignal; CaseDone] /\
  fire callee SelectDone p = Some (with_listener p Stopped) /\
  exists c p',
    recv (signalCh (tebata p)) = Some c /\
    S (length (buf c)) = length (buf (signalCh (tebata p))) /\
    fire callee SelectSignal p
    = Some (with_listener (with_signalCh p c) Dispatching) /\
    fire callee RunExec (with_listener (with_signalCh p c) Dispatching)
    = Some p' /\
    dispatches p' = S (dispatches p).
Proof.
  intros World callee [[d [n b cl] r] h l w cs k cr] Hcr Hl Hb Hd.
  simpl in *. subst cr l d.
  destruct b as [|x b]; [congruence|].
  split; [reflexivity|]. split; [reflexivity|].
  exists (Chan n b cl). unfold fire, listen_exec. simpl.
  destruct (exec callee r w) as [[w1 made] o] eqn:He.
  eexists. repeat split.
Qed.

Lemma select_has_no_priority_witness :
  ready (tebata (Close (raise SIGINT (New [SIGINT] tt))))
  = [CaseSignal; CaseDone].
Proof.
  apply (proj1 (@select_has_no_priority unit Sample.quiet
                  (Close (raise SIGINT (New [SIGINT] tt)))
                  eq_refl eq_refl
                  (fun H : [SIGINT] = [] => @nil_cons Signal SIGINT [] (eq_sym H))
                  eq_refl)).
Defined.

(** C7.  What the code does where the claim asks for the priority of
    cancellation: with [hello] reserved, a signal pending and [Close]
    called, the listener is at its [select] with both cases ready, and
    taking the signal case it drains the notification and enters [hello]
    after the cancellation. *)
Theorem dispatch_after_cancellation :
  option_map (fun p => (listener p, ctx_done (tebata p),
                        buf (signalCh (tebata p)), dispatches p))
             (run Sample.quiet
                  [CallReserve Sample.hello []; Raise SIGINT; CallClose]
                  (New [SIGINT] tt))
  = Some (Waiting, true, [SIGINT], 0) /\
  option_map (fun p => (listener p, buf (signalCh (tebata p)),
                        dispatches p, calls p))
             (run Sample.quiet
                  [CallReserve Sample.hello []; Raise SIGINT; CallClose;
                   SelectSignal; RunExec]
                  (New [SIGINT] tt))
  = Some (Waiting, [], 1, [invocation_of (FunctionData Sample.hello [])]).
Proof. split; reflexivity. Qed.



(* ------------------------------------------------------------------ *)
(** ** Further properties of [Reserve] *)
(* ------------------------------------------------------------------ *)

Lemma args_match_true : forall t (l : list reflect.any),
  length l = reflect.NumIn t ->
  (args_match t l (reflect.NumIn t) = true <->
   forall i, ~ mismatch_at t l i).
Proof.
  intros t l Hlen. split.
  - intros Hm i Hi.
    assert (Hf : args_match t l (reflect.NumIn t) = false)
      by (apply args_match_false; eauto).
    congruence.
  - intro Hno. destruct (args_match t l (reflect.NumIn t)) eqn:E; auto.
    apply args_match_false in E; [|assumption].
    destruct E as [i Hi]. exfalso. exact (Hno i Hi).
Qed.

Lemma Reserve_None_iff : forall r function (l : list reflect.any),
  snd (Reserve r function l) = None <->
  exists t, func_of_type function t /\
            length l = reflect.NumIn t /\
            forall i, ~ mismatch_at t l i.
Proof.
  intros r function l. split.
  - intro H. destruct (Reserve_cases r function l) as
      [Hk | t Hf Hl | t Hf Hl | t Hf Hl Hm | t Hf Hl Hm];
      simpl in H; try discriminate H.
    exists t. split; [assumption|]. split; [assumption|].
    apply args_match_true; assumption.
  - intros (t & Hf & Hlen & Hno).
    apply (args_match_true t l Hlen) in Hno.
    destruct (Reserve_cases r function l) as
      [Hk | t' Hf' Hl | t' Hf' Hl | t' Hf' Hl Hm | t' Hf' Hl Hm]; simpl.
    + exfalso. apply Hk. eapply func_of_type_Kind; eauto.
    + rewrite (func_of_type_inj Hf' Hf) in Hl. lia.
    + rewrite (func_of_type_inj Hf' Hf) in Hl. lia.
    + rewrite (func_of_type_inj Hf' Hf) in Hm. congruence.
    + reflexivity.
Qed.

(** X1.  [Reserve] returns no error exactly when the callable is a function
    value, it is given as many arguments as it has parameters, and no
    argument is a non-nil value of a type not assignable to its parameter;
    it then stores exactly one new entry, after the others. *)
Theorem Reserve_success_iff : forall r function (l : list reflect.any),
  (snd (Reserve r function l) = None <->
   exists t, func_of_type function t /\
             length l = reflect.NumIn t /\
             forall i, ~ mismatch_at t l i) /\
  (snd (Reserve r function l) = None ->
   fst (Reserve r function l) = r ++ [FunctionData function l] /\
   length (fst (Reserve r function l)) = S (length r)).
Proof.
  intros r function l. split; [apply Reserve_None_iff|].
  intro H. destruct (Reserve_cases r function l);
    simpl in H; try discriminate H.
  simpl. split; [reflexivity|]. rewrite length_app. simpl. lia.
Qed.

Lemma Reserve_success_iff_witness :
  fst (Reserve [FunctionData Sample.hello []] Sample.sum
               [Sample.int_ 1; Sample.int_ 2])
  = [FunctionData Sample.hello []]
    ++ [FunctionData Sample.sum [Sample.int_ 1; Sample.int_ 2]].
Proof.
  apply (proj1 (proj2 (@Reserve_success_iff [FunctionData Sample.hello []]
                         Sample.sum [Sample.int_ 1; Sample.int_ 2])
                      eq_refl)).
Defined.

(** X2.  [ErrInvalidArgs], which the package declares, is returned by no
    call of [Reserve]. *)
Theorem Reserve_never_ErrInvalidArgs : forall r function (l : list reflect.any),
  snd (Reserve r function l) <> Some ErrInvalidArgs.
Proof.
  intros r function l.
  destruct (Reserve_cases r function l); simpl; discriminate.
Qed.

(** X3.  [Reserve] does not look at what is reserved already: a call that
    succeeded succeeds again, and the callable is then stored twice, the
    second entry right after the first. *)
Theorem Reserve_twice : forall r function (l : list reflect.any) r1,
  Reserve r function l = (r1, None) ->
  Reserve r1 function l
  = (r ++ [FunctionData function l; FunctionData function l], None).
Proof.
  intros r function l r1 H.
  pose proof (Reserve_cases r function l) as Hc. rewrite H in Hc.
  inversion Hc as [| | | |t Hf Hl Hm Heq]; subst.
  pose proof (Reserve_cases (r ++ [FunctionData function l]) function l)
    as Hc2.
  inversion Hc2 as [Hk Heq | t' Hf' Hl' Heq | t' Hf' Hl' Heq
                    | t' Hf' Hl' Hm' Heq | t' Hf' Hl' Hm' Heq].
  - exfalso. apply Hk. eapply func_of_type_Kind; eauto.
  - rewrite (func_of_type_inj Hf' Hf) in Hl'. lia.
  - rewrite (func_of_type_inj Hf' Hf) in Hl'. lia.
  - rewrite (func_of_type_inj Hf' Hf) in Hm'. congruence.
  - rewrite <- app_assoc. reflexivity.
Qed.

Lemma Reserve_twice_witness :
  Reserve [FunctionData Sample.hello []] Sample.hello []
  = ([] ++ [FunctionData Sample.hello []; FunctionData Sample.hello []], None).
Proof.
  apply (@Reserve_twice [] Sample.hello [] [FunctionData Sample.hello []]).
  reflexivity.
Defined.

Lemma first_unassignable_None : forall t in_ n i,
  reflect.first_unassignable t in_ i n = None ->
  forall j, i <= j < i + n ->
  exists xt w targ,
    nth_error in_ j = Some (reflect.Val xt w) /\
    reflect.In_ t j = Some targ /\
    reflect.AssignableTo xt targ = true.
Proof.
  intros t in_ n. induction n as [|n IH]; intros i H j Hj; [lia|].
  simpl in H.
  destruct (nth_error in_ i) as [[|xt w]|] eqn:Ex; try discriminate H.
  destruct (reflect.In_ t i) as [targ|] eqn:Et; try discriminate H.
  destruct (reflect.AssignableTo xt targ) eqn:Ea; try discriminate H.
  destruct (Nat.eq_dec j i) as [->|Hne].
  - exists xt, w, targ. auto.
  - apply (IH (S i) H). lia.
Qed.

Lemma nth_error_ValueOf : forall (l : list reflect.any) j xt w,
  nth_error (map reflect.ValueOf l) j = Some (reflect.Val xt w) ->
  nth_error l j = Some (Some (reflect.Iface xt w)).
Proof.
  induction l as [|x l IH]; intros [|j] xt w H; simpl in *;
    try discriminate H.
  - destruct x as [[t' w']|]; simpl in H; [|discriminate H].
    injection H as -> ->. reflexivity.
  - apply IH. assumption.
Qed.

(** X4.  For a non-nil, non-variadic callable and arguments none of which
    is nil, [Reserve] accepts exactly what [Value.Call] accepts in [exec]:
    it stores the entry if and only if the call of the entry passes every
    check [Value.Call] makes before it enters the callable. *)
Theorem Reserve_accepts_what_Call_accepts :
  forall r function (l : list reflect.any),
  plain_callable (FunctionData function l) = true ->
  no_nil_args (FunctionData function l) = true ->
  (snd (Reserve r function l) = None <->
   reflect.call_checks (reflect.ValueOf function)
                       (map reflect.ValueOf l) = None).
Proof.
  intros r function l Hpl Hnn. split.
  - intro H.
    apply (plain_entry_checks_pass (FunctionData function l)); auto.
    pose proof (Reserve_keeps_invariant [] function l eq_refl) as Hinv.
    destruct (Reserve_cases [] function l) as
      [Hk | t Hf Hl | t Hf Hl | t Hf Hl Hm | t Hf Hl Hm];
      destruct (Reserve_cases r function l) as
      [Hk' | t' Hf' Hl' | t' Hf' Hl' | t' Hf' Hl' Hm' | t' Hf' Hl' Hm'];
      simpl in H; try discriminate H;
      try (exfalso; apply Hk; eapply func_of_type_Kind; eauto; fail);
      try (rewrite (func_of_type_inj Hf' Hf) in *; lia);
      try (rewrite (func_of_type_inj Hf' Hf) in *; congruence).
    simpl in Hinv. apply andb_true_iff in Hinv. tauto.
  - intro Hc.
    unfold plain_callable in Hpl. simpl in Hpl.
    destruct function as [[t [code|]]|]; try discriminate Hpl.
    simpl in Hc.
    destruct t as [| | | | | | |ins outs variadic]; try discriminate Hc.
    simpl in Hpl. destruct variadic; [discriminate Hpl|].
    unfold reflect.call_checks in Hc. simpl negb in Hc.
    rewrite andb_true_l in Hc.
    destruct (length (map reflect.ValueOf l)
              <? reflect.NumIn (reflect.TFunc ins outs false)) eqn:E1;
      [discriminate Hc|].
    destruct (reflect.NumIn (reflect.TFunc ins outs false)
              <? length (map reflect.ValueOf l)) eqn:E2;
      [discriminate Hc|].
    apply Nat.ltb_ge in E1, E2. rewrite length_map in E1, E2.
    assert (Hlen : length l = reflect.NumIn (reflect.TFunc ins outs false))
      by lia.
    destruct (existsb _ (map reflect.ValueOf l)); [discriminate Hc|].
    destruct (reflect.first_unassignable (reflect.TFunc ins outs false)
                (map reflect.ValueOf l) 0
                (reflect.NumIn (reflect.TFunc ins outs false))) eqn:Ef;
      [discriminate Hc|].
    apply (proj2 (Reserve_None_iff r _ l)).
    exists (reflect.TFunc ins outs false).
    split; [split; reflexivity|]. split; [assumption|].
    intros i (a & pt & Ea & Ep & Hn).
    assert (Hi : i < length l) by (apply nth_error_Some; congruence).
    destruct (@first_unassignable_None _ _ _ _ Ef i) as
      (xt & w & targ & Ex & Et & Hass); [lia|].
    apply nth_error_ValueOf in Ex. rewrite Ea in Ex.
    injection Ex as ->. simpl in Hn. congruence.
Qed.

Lemma Reserve_accepts_what_Call_accepts_witness :
  snd (Reserve [] Sample.sum [Sample.int_ 1; Sample.int_ 2]) = None <->
  reflect.call_checks (reflect.ValueOf Sample.sum)
    (map reflect.ValueOf [Sample.int_ 1; Sample.int_ 2]) = None.
Proof.
  apply (@Reserve_accepts_what_Call_accepts [] Sample.sum
           [Sample.int_ 1; Sample.int_ 2]); reflexivity.
Defined.

(* ------------------------------------------------------------------ *)
(** ** Further properties of [exec] and of the running program *)
(* ------------------------------------------------------------------ *)

Section RunFacts.

Variable World : Type.
Variable callee : nat -> list reflect.Value -> World -> World * bool.

Lemma exec_range_app : forall r1 r2 (w : World),
  exec_range callee (r1 ++ r2) w =
  match exec_range callee r1 w with
  | (w1, m1, Returned) =>
      match exec_range callee r2 w1 with
      | (w2, m2, o) => (w2, m1 ++ m2, o)
      end
  | other => other
  end.
Proof.
  induction r1 as [|fd r1 IH]; intros r2 w; simpl.
  - destruct (exec_range callee r2 w) as [[w2 m2] o]. reflexivity.
  - destruct (Call callee (reflect.ValueOf (function fd))
                   (map reflect.ValueOf (args fd)) w) as [[w1 m1] o1].
    destruct o1; try reflexivity.
    rewrite IH.
    destruct (exec_range callee r1 w1) as [[w2 m2] o2].
    destruct o2; try reflexivity.
    destruct (exec_range callee r2 w2) as [[w3 m3] o3].
    rewrite app_assoc. reflexivity.
Qed.

Lemma fire_registry : forall e (p p' : process World),
  fire callee e p = Some p' ->
  exists l, reservedFunctions (tebata p')
            = reservedFunctions (tebata p) ++ l /\
            length l <= reserves [e].
Proof.
  intros e [[d [n b cl] r] h l w cs k cr] p'. unfold fire. simpl.
  destruct cr as [c|]; [discriminate|].
  destruct e as [sig | f a | | | | ]; intro H.
  - injection H as <-. exists []. rewrite app_nil_r. split; [|simpl; lia].
    unfold raise. simpl. destruct h as [signals|]; [|reflexivity].
    destruct (relays signals sig); [|reflexivity].
    destruct (try_send (Chan n b cl) sig); reflexivity.
  - injection H as <-. simpl.
    destruct (Reserve_cases r f a); simpl;
      try (exists []; rewrite app_nil_r; split; [reflexivity | simpl; lia]).
    eexists. split; [reflexivity | simpl; lia].
  - injection H as <-. exists []. rewrite app_nil_r. split; [|simpl; lia].
    unfold Close. simpl. destruct (close (Chan n b cl)); reflexivity.
  - unfold listen, listen_signal in H. simpl in H.
    destruct l; try discriminate H.
    destruct (recv (Chan n b cl)); [|discriminate H].
    injection H as <-. exists []. rewrite app_nil_r. split; [reflexivity|].
    simpl; lia.
  - unfold listen, listen_done in H. simpl in H.
    destruct l; try discriminate H. destruct d; [|discriminate H].
    injection H as <-. exists []. rewrite app_nil_r. split; [reflexivity|].
    simpl; lia.
  - unfold listen_exec in H. simpl in H.
    destruct l; try discriminate H.
    destruct (exec callee r w) as [[w1 made] o].
    injection H as <-. exists []. rewrite app_nil_r. split; [reflexivity|].
    simpl; lia.
Qed.

Lemma fire_owed : forall signals e (p p' : process World),
  handlers p = Some signals ->
  closed (signalCh (tebata p)) = false ->
  never_closes [e] = true ->
  fire callee e p = Some p' ->
  handlers p' = Some signals /\
  closed (signalCh (tebata p')) = false /\
  owed p' <= owed p + relayed signals [e].
Proof.
  intros signals e [[d [n b cl] r] h l w cs k cr] p' Hh Hcl Hnc.
  unfold fire. simpl in *. subst h cl.
  destruct cr as [c|]; [discriminate|].
  destruct e as [sig | f a | | | | ]; intro H; try discriminate Hnc.
  - injection H as <-. unfold raise, try_send, owed. simpl.
    destruct (relays signals sig); [|simpl; repeat split; lia].
    destruct (length b <? n); simpl; repeat split; try lia.
    rewrite length_app. simpl. destruct l; lia.
  - injection H as <-. unfold owed. simpl. repeat split. lia.
  - unfold listen, listen_signal, recv in H. simpl in H.
    destruct l; try discriminate H.
    destruct b as [|x b]; [discriminate H|].
    injection H as <-. unfold owed. simpl. repeat split. lia.
  - unfold listen, listen_done in H. simpl in H.
    destruct l; try discriminate H. destruct d; [|discriminate H].
    injection H as <-. unfold owed. simpl. repeat split. lia.
  - unfold listen_exec in H. simpl in H.
    destruct l; try discriminate H.
    destruct (exec callee r w) as [[w1 made] o].
    injection H as <-. unfold owed. simpl. repeat split.
    destruct o; simpl; lia.
Qed.

Lemma run_owed : forall signals es (p p' : process World),
  handlers p = Some signals ->
  closed (signalCh (tebata p)) = false ->
  never_closes es = true ->
  run callee es p = Some p' ->
  owed p' <= owed p + relayed signals es.
Proof.
  intros signals es. induction es as [|e es IH]; intros p p' Hh Hcl Hnc H.
  - simpl in H. injection H as <-. simpl. lia.
  - simpl in H. destruct (fire callee e p) as [p1|] eqn:Hf; [|discriminate H].
    assert (Hnc1 : never_closes [e] = true)
      by (destruct e; simpl in *; auto).
    assert (Hnc2 : never_closes es = true)
      by (destruct e; simpl in *; auto; discriminate).
    destruct (fire_owed e p Hh Hcl Hnc1 Hf) as (Hh1 & Hcl1 & Ho).
    specialize (IH p1 p' Hh1 Hcl1 Hnc2 H).
    assert (Hr : relayed signals (e :: es)
                 = relayed signals [e] + relayed signals es)
      by (destruct e; simpl; lia).
    lia.
Qed.

Lemma fire_after_Stop : forall e (p p' : process World),
  handlers p = None ->
  fire callee e p = Some p' ->
  handlers p' = None /\
  length (buf (signalCh (tebata p'))) <= length (buf (signalCh (tebata p))).
Proof.
  intros e [[d [n b cl] r] h l w cs k cr] p' Hh.
  unfold fire. simpl in *. subst h.
  destruct cr as [c|]; [discriminate|].
  destruct e as [sig | f a | | | | ]; intro H.
  - injection H as <-. simpl. auto.
  - injection H as <-. simpl. auto.
  - injection H as <-. unfold Close, close. simpl.
    destruct cl; simpl; auto.
  - unfold listen, listen_signal, recv in H. simpl in H.
    destruct l; try discriminate H.
    destruct b as [|x b].
    + destruct cl; [|discriminate H]. injection H as <-. simpl. auto.
    + injection H as <-. simpl. auto.
  - unfold listen, listen_done in H. simpl in H.
    destruct l; try discriminate H. destruct d; [|discriminate H].
    injection H as <-. simpl. auto.
  - unfold listen_exec in H. simpl in H.
    destruct l; try discriminate H.
    destruct (exec callee r w) as [[w1 made] o].
    injection H as <-. simpl. auto.
Qed.

Lemma fire_Stopped : forall e (p p' : process World),
  listener p = Stopped ->
  fire callee e p = Some p' ->
  listener p' = Stopped /\ dispatches p' = dispatches p /\
  calls p' = calls p /\ world p' = world p.
Proof.
  intros e [[d [n b cl] r] h l w cs k cr] p' Hl.
  unfold fire. simpl in *. subst l.
  destruct cr as [c|]; [discriminate|].
  destruct e as [sig | f a | | | | ]; intro H; try discriminate H.
  - injection H as <-. unfold raise. simpl.
    destruct h as [signals|]; [|simpl; auto].
    destruct (relays signals sig); [|simpl; auto].
    destruct (try_send (Chan n b cl) sig); simpl; auto.
  - injection H as <-. simpl. auto.
  - injection H as <-. unfold Close. simpl.
    destruct (close (Chan n b cl)); simpl; auto.
Qed.

Lemma fire_cancelled : forall e (p p' : process World),
  fire callee e p = Some p' ->
  (ctx_done (tebata p) = true -> ctx_done (tebata p') = true) /\
  (closed (signalCh (tebata p)) = true ->
   closed (signalCh (tebata p')) = true).
Proof.
  intros e [[d [n b cl] r] h l w cs k cr] p'.
  unfold fire. simpl in *.
  destruct cr as [c|]; [discriminate|].
  destruct e as [sig | f a | | | | ]; intro H.
  - injection H as <-. unfold raise, try_send. simpl.
    destruct h as [signals|]; [|simpl; auto].
    destruct (relays signals sig); [|simpl; auto].
    destruct cl; simpl; auto.
    destruct (length b <? n); simpl; auto.
  - injection H as <-. simpl. auto.
  - injection H as <-. unfold Close, close. simpl.
    destruct cl; simpl; auto.
  - unfold listen, listen_signal, recv in H. simpl in H.
    destruct l; try discriminate H.
    destruct b as [|x b].
    + destruct cl; [|discriminate H]. injection H as <-. simpl. auto.
    + injection H as <-. simpl. auto.
  - unfold listen, listen_done in H. simpl in H.
    destruct l; try discriminate H. destruct d; [|discriminate H].
    injection H as <-. simpl. auto.
  - unfold listen_exec in H. simpl in H.
    destruct l; try discriminate H.
    destruct (exec callee r w) as [[w1 made] o].
    injection H as <-. simpl. auto.
Qed.

(** A closed channel belongs to a cancelled context. *)
Lemma reachable_closed_cancelled : forall p : process World,
  reachable callee p ->
  closed (signalCh (tebata p)) = true -> ctx_done (tebata p) = true.
Proof.
  intros p H. induction H as [signals w | p e p' Hp IH Hf].
  - simpl. discriminate.
  - revert IH Hf. destruct p as [[d [n b cl] r] h l w cs k cr].
    unfold fire. simpl.
    destruct cr as [c|]; [discriminate|].
    destruct e as [sig | f a | | | | ]; intros IH H.
    + injection H as <-. unfold raise, try_send. simpl.
      destruct h as [signals|]; [|simpl; auto].
      destruct (relays signals sig); [|simpl; auto].
      destruct cl; simpl; auto.
      destruct (length b <? n); simpl; auto.
    + injection H as <-. simpl. auto.
    + injection H as <-. unfold Close, close. simpl.
      destruct cl; simpl; auto.
    + unfold listen, listen_signal, recv in H. simpl in H.
      destruct l; try discriminate H.
      destruct b as [|x b].
      * destruct cl; [|discriminate H]. injection H as <-. simpl. auto.
      * injection H as <-. simpl. auto.
    + unfold listen, listen_done in H. simpl in H.
      destruct l; try discriminate H. destruct d; [|discriminate H].
      injection H as <-. simpl. auto.
    + unfold listen_exec in H. simpl in H.
      destruct l; try discriminate H.
      destruct (exec callee r w) as [[w1 made] o].
      injection H as <-. simpl. auto.
Qed.

End RunFacts.

(** X5.  A dispatch over two sequences of entries put end to end is the
    dispatch over the first followed, when that one returns, by the dispatch
    over the second from the state the first left; when the first panics
    nothing of the second is entered. *)
Theorem exec_app :
  forall (World : Type)
         (callee : nat -> list reflect.Value -> World -> World * bool)
         (r1 r2 : list functionData) (w : World),
  exec callee (r1 ++ r2) w =
  match exec callee r1 w with
  | (w1, m1, Returned) =>
      match exec callee r2 w1 with
      | (w2, m2, o) => (w2, m1 ++ m2, o)
      end
  | other => other
  end.
Proof. intros. unfold exec. apply exec_range_app. Qed.

(** X6.  The reserved functions only grow, and only by [Reserve]: over any
    run of the program the sequence at the end is the sequence at the start
    followed by at most one new entry for each call of [Reserve]; no entry
    is removed, changed or moved. *)
Theorem registry_append_only :
  forall (World : Type)
         (callee : nat -> list reflect.Value -> World -> World * bool)
         (es : list event) (p p' : process World),
  run callee es p = Some p' ->
  exists l, reservedFunctions (tebata p')
            = reservedFunctions (tebata p) ++ l /\
            length l <= reserves es.
Proof.
  intros World callee es. induction es as [|e es IH]; intros p p' H.
  - simpl in H. injection H as <-. exists []. rewrite app_nil_r. auto.
  - simpl in H. destruct (fire callee e p) as [p1|] eqn:Hf; [|discriminate H].
    destruct (@fire_registry World callee e p p1 Hf) as (l1 & E1 & L1).
    destruct (IH _ _ H) as (l2 & E2 & L2).
    exists (l1 ++ l2). rewrite E2, E1, app_assoc. split; [reflexivity|].
    rewrite length_app.
    assert (Hr : reserves (e :: es) = reserves [e] + reserves es)
      by (destruct e; simpl; lia).
    lia.
Qed.

Lemma registry_append_only_witness :
  exists l,
    reservedFunctions
      (tebata (call_Reserve Sample.hello []
                 (raise SIGINT (New [SIGINT] tt))))
    = reservedFunctions (tebata (New [SIGINT] tt)) ++ l /\
    length l <= reserves [Raise SIGINT; CallReserve Sample.hello []].
Proof.
  apply (@registry_append_only unit Sample.quiet
           [Raise SIGINT; CallReserve Sample.hello []]
           (New [SIGINT] tt)).
  reflexivity.
Defined.

(** X7.  As long as [Close] is not called, every dispatch answers a signal:
    in a run from [New] the number of dispatches is at most the number of
    signals raised that [New] subscribed to. *)
Theorem dispatches_bounded_by_signals :
  forall (World : Type)
         (callee : nat -> list reflect.Value -> World -> World * bool)
         (signals : list Signal) (w : World) (es : list event)
         (p : process World),
  run callee es (New signals w) = Some p ->
  never_closes es = true ->
  dispatches p <= relayed signals es.
Proof.
  intros World callee signals w es p H Hnc.
  pose proof (@run_owed World callee signals es (New signals w) p
                eq_refl eq_refl Hnc H) as Ho.
  unfold owed in Ho. simpl in Ho. lia.
Qed.

Lemma dispatches_bounded_by_signals_witness :
  dispatches
    (Process (MkTebata false (Chan 1 [] false) []) (Some [SIGINT; SIGTERM])
             Waiting tt [] 1 None)
  <= relayed [SIGINT; SIGTERM]
       [Raise SIGTERM; Raise SIGINT; Raise SIGINT; SelectSignal; RunExec].
Proof.
  apply (@dispatches_bounded_by_signals unit Sample.quiet [SIGINT; SIGTERM] tt
           [Raise SIGTERM; Raise SIGINT; Raise SIGINT; SelectSignal; RunExec]);
    reflexivity.
Defined.

(** X8.  After [Close] no signal reaches the channel any more: over any
    further run the handler stays removed and the number of pending
    notifications does not grow; a signal raised then is not caught, it
    takes its default action and ends the program. *)
Theorem no_delivery_after_Close :
  forall (World : Type)
         (callee : nat -> list reflect.Value -> World -> World * bool)
         (es : list event) (p p' : process World),
  run callee es (Close p) = Some p' ->
  handlers p' = None /\
  length (buf (signalCh (tebata p')))
  <= length (buf (signalCh (tebata p))) /\
  (forall sig, crashed p' = None ->
               fire callee (Raise sig) p'
               = Some (with_crash p' (KilledBySignal sig))).
Proof.
  intros World callee es p p' H.
  assert (Hgen : forall es (q q' : process World),
             handlers q = None -> run callee es q = Some q' ->
             handlers q' = None /\
             length (buf (signalCh (tebata q')))
             <= length (buf (signalCh (tebata q)))).
  { clear. intros es. induction es as [|e es IH]; intros q q' Hh H.
    - simpl in H. injection H as <-. auto.
    - simpl in H.
      destruct (fire callee e q) as [q1|] eqn:Hf; [|discriminate H].
      destruct (@fire_after_Stop World callee e q q1 Hh Hf) as [Hh1 Hl1].
      destruct (IH _ _ Hh1 H) as [Hh2 Hl2]. split; [assumption | lia]. }
  assert (Hc : handlers (Close p) = None /\
               buf (signalCh (tebata (Close p))) = buf (signalCh (tebata p))).
  { destruct p as [[d [n b cl] r] h l w cs k cr].
    unfold Close, close. simpl. destruct cl; simpl; auto. }
  destruct Hc as [Hh Hb].
  destruct (Hgen es _ _ Hh H) as [Hh' Hl']. rewrite Hb in Hl'.
  split; [assumption|]. split; [assumption|].
  intros sig Hcr. unfold fire. rewrite Hcr. unfold raise. rewrite Hh'.
  reflexivity.
Qed.

Lemma no_delivery_after_Close_witness :
  handlers (call_Reserve Sample.hello [] (Close (New [SIGINT] tt))) = None /\
  length (buf (signalCh (tebata (call_Reserve Sample.hello []
                                   (Close (New [SIGINT] tt))))))
  <= length (buf (signalCh (tebata (New [SIGINT] tt)))) /\
  (forall sig,
     crashed (call_Reserve Sample.hello [] (Close (New [SIGINT] tt))) = None ->
     fire Sample.quiet (Raise sig)
          (call_Reserve Sample.hello [] (Close (New [SIGINT] tt)))
     = Some (with_crash (call_Reserve Sample.hello []
                                      (Close (New [SIGINT] tt)))
                        (KilledBySignal sig))).
Proof.
  apply (@no_delivery_after_Close unit Sample.quiet
           [CallReserve Sample.hello []] (New [SIGINT] tt)).
  reflexivity.
Defined.

(** X9.  Once [listen] has returned nothing is dispatched any more: over
    any further run the listener stays stopped, and the number of
    dispatches, the calls made and the state of the host stay as they are. *)
Theorem Stopped_is_terminal :
  forall (World : Type)
         (callee : nat -> list reflect.Value -> World -> World * bool)
         (es : list event) (p p' : process World),
  listener p = Stopped ->
  run callee es p = Some p' ->
  listener p' = Stopped /\ dispatches p' = dispatches p /\
  calls p' = calls p /\ world p' = world p.
Proof.
  intros World callee es. induction es as [|e es IH]; intros p p' Hl H.
  - simpl in H. injection H as <-. auto.
  - simpl in H. destruct (fire callee e p) as [p1|] eqn:Hf; [|discriminate H].
    destruct (@fire_Stopped World callee e p p1 Hl Hf) as (Hl1 & Hd1 & Hc1 & Hw1).
    destruct (IH _ _ Hl1 H) as (Hl2 & Hd2 & Hc2 & Hw2).
    repeat split; congruence.
Qed.

Lemma Stopped_is_terminal_witness :
  listener (raise SIGINT (with_listener (Close (New [SIGINT] tt)) Stopped))
  = Stopped /\
  dispatches (raise SIGINT (with_listener (Close (New [SIGINT] tt)) Stopped))
  = dispatches (with_listener (Close (New [SIGINT] tt)) Stopped) /\
  calls (raise SIGINT (with_listener (Close (New [SIGINT] tt)) Stopped))
  = calls (with_listener (Close (New [SIGINT] tt)) Stopped) /\
  world (raise SIGINT (with_listener (Close (New [SIGINT] tt)) Stopped))
  = world (with_listener (Close (New [SIGINT] tt)) Stopped).
Proof.
  apply (@Stopped_is_terminal unit Sample.quiet [Raise SIGINT]
           (with_listener (Close (New [SIGINT] tt)) Stopped));
    reflexivity.
Defined.

(** X10.  Cancellation is for good: over any run a cancelled context stays
    cancelled and a closed channel stays closed. *)
Theorem cancellation_is_irreversible :
  forall (World : Type)
         (callee : nat -> list reflect.Value -> World -> World * bool)
         (es : list event) (p p' : process World),
  run callee es p = Some p' ->
  (ctx_done (tebata p) = true -> ctx_done (tebata p') = true) /\
  (closed (signalCh (tebata p)) = true ->
   closed (signalCh (tebata p')) = true).
Proof.
  intros World callee es. induction es as [|e es IH]; intros p p' H.
  - simpl in H. injection H as <-. auto.
  - simpl in H. destruct (fire callee e p) as [p1|] eqn:Hf; [|discriminate H].
    destruct (@fire_cancelled World callee e p p1 Hf) as [Hd1 Hc1].
    destruct (IH _ _ H) as [Hd2 Hc2]. split; auto.
Qed.

Lemma cancellation_is_irreversible_witness :
  (ctx_done (tebata (Close (New [SIGINT] tt))) = true ->
   ctx_done (tebata (with_listener (Close (New [SIGINT] tt)) Stopped))
   = true) /\
  (closed (signalCh (tebata (Close (New [SIGINT] tt)))) = true ->
   closed (signalCh (tebata (with_listener (Close (New [SIGINT] tt))
                                           Stopped))) = true).
Proof.
  apply (@cancellation_is_irreversible unit Sample.quiet [SelectDone]
           (Close (New [SIGINT] tt))).
  reflexivity.
Defined.

(** X11.  [Close] does not interrupt a dispatch in flight: with the channel
    still open and the listener between its receive and the return of
    [exec], closing first and letting [exec] run gives the state that
    letting [exec] run and closing afterwards gives. *)
Theorem Close_lets_dispatch_finish :
  forall (World : Type)
         (callee : nat -> list reflect.Value -> World -> World * bool)
         (p : process World),
  crashed p = None ->
  listener p = Dispatching ->
  closed (signalCh (tebata p)) = false ->
  exists p', fire callee RunExec p = Some p' /\
             fire callee RunExec (Close p) = Some (Close p').
Proof.
  intros World callee [[d [n b cl] r] h l w cs k cr] Hcr Hl Hcl.
  simpl in *. subst cr l cl.
  unfold fire, listen_exec. simpl.
  destruct (exec callee r w) as [[w1 made] o].
  eexists. split; reflexivity.
Qed.

Lemma Close_lets_dispatch_finish_witness :
  exists p',
    fire Sample.quiet RunExec
         (with_listener (New [SIGINT] tt) Dispatching) = Some p' /\
    fire Sample.quiet RunExec
         (Close (with_listener (New [SIGINT] tt) Dispatching))
    = Some (Close p').
Proof.
  apply (@Close_lets_dispatch_finish unit Sample.quiet
           (with_listener (New [SIGINT] tt) Dispatching));
    reflexivity.
Defined.

(** X12.  Once the channel is closed the [select] of [listen] never blocks:
    in every state the program reaches with the channel closed, both cases
    are ready, so the listener either returns or runs one more dispatch. *)
Theorem closed_channel_keeps_select_ready :
  forall (World : Type)
         (callee : nat -> list reflect.Value -> World -> World * bool)
         (p : process World),
  reachable callee p ->
  closed (signalCh (tebata p)) = true ->
  ready (tebata p) = [CaseSignal; CaseDone].
Proof.
  intros World callee p Hp Hcl.
  pose proof (reachable_closed_cancelled Hp Hcl) as Hd.
  destruct p as [[d [n b cl] r] h l w cs k cr]. simpl in *. subst d cl.
  unfold ready, recv. simpl. destruct b; reflexivity.
Qed.

Lemma closed_channel_keeps_select_ready_witness :
  ready (tebata (Close (New [SIGINT] tt))) = [CaseSignal; CaseDone].
Proof.
  apply (@closed_channel_keeps_select_ready unit Sample.quiet
           (Close (New [SIGINT] tt))).
  - exact (@reach_fire unit Sample.quiet _ CallClose _
             (@reach_New unit Sample.quiet [SIGINT] tt) eq_refl).
  - reflexivity.
Defined.

(** X13.  One subscribed signal, one dispatch: with the listener waiting,
    nothing pending and the handler in place, raising a signal [New]
    subscribed to, the receive of [listen] and [exec] run exactly one
    dispatch over the functions reserved at that time, in the state of the
    host at that time; when it returns the listener waits again with
    nothing pending. *)
Theorem signal_runs_one_dispatch :
  forall (World : Type)
         (callee : nat -> list reflect.Value -> World -> World * bool)
         (p : process World) (signals : list Signal) (sig : Signal),
  reachable callee p ->
  crashed p = None ->
  listener p = Waiting ->
  buf (signalCh (tebata p)) = [] ->
  handlers p = Some signals ->
  relays signals sig = true ->
  exists p',
    run callee [Raise sig; SelectSignal; RunExec] p = Some p' /\
    dispatches p' = S (dispatches p) /\
    world p' = fst (fst (exec callee (reservedFunctions (tebata p)) (world p)))
    /\
    calls p' = calls p
               ++ snd (fst (exec callee (reservedFunctions (tebata p))
                                 (world p))) /\
    (snd (exec callee (reservedFunctions (tebata p)) (world p)) = Returned ->
     listener p' = Waiting /\ buf (signalCh (tebata p')) = [] /\
     calls p' = calls p ++ map invocation_of (reservedFunctions (tebata p))).
Proof.
  intros World callee p signals sig Hp Hcr Hl Hb Hh Hrel.
  destruct (reachable_invariant Hp) as (Hcap & _ & Hcl & _).
  destruct p as [[d [n b cl] r] h l w cs k cr]. simpl in *.
  subst cr l b h n.
  destruct cl; [specialize (Hcl eq_refl); discriminate Hcl|].
  unfold fire, raise, try_send. simpl. rewrite Hrel. simpl.
  unfold listen_exec. simpl.
  destruct (exec callee r w) as [[w1 made] o] eqn:He.
  eexists. split; [reflexivity|]. simpl.
  split; [reflexivity|]. split; [reflexivity|]. split; [reflexivity|].
  intros ->. split; [reflexivity|]. split; [reflexivity|].
  f_equal. unfold exec in He.
  exact (proj2 (exec_range_prefix _ _ _ He) eq_refl).
Qed.

Lemma signal_runs_one_dispatch_witness :
  exists p',
    run Sample.quiet [Raise SIGTERM; SelectSignal; RunExec]
        (call_Reserve Sample.hello [] (New [SIGINT; SIGTERM] tt)) = Some p' /\
    dispatches p' = 1.
Proof.
  destruct (@signal_runs_one_dispatch unit Sample.quiet
              (call_Reserve Sample.hello [] (New [SIGINT; SIGTERM] tt))
              [SIGINT; SIGTERM] SIGTERM
              (@reach_fire unit Sample.quiet _
                 (CallReserve Sample.hello []) _
                 (@reach_New unit Sample.quiet [SIGINT; SIGTERM] tt) eq_refl)
              eq_refl eq_refl eq_refl eq_refl eq_refl)
    as (p' & Hrun & Hd & _).
  exists p'. split; assumption.
Defined.

(* ------------------------------------------------------------------ *)
(** ** The earlier versions and the example program *)
(* ------------------------------------------------------------------ *)

(** X14.  The [Reserve] that does not validate stores every function value
    with whatever arguments it is given and fails on nothing else; the
    validating [Reserve] stores the same entry whenever it stores one, and
    the two fail alike on a value that is not a function. *)
Theorem Reserve_refines_unchecked :
  forall r function (l : list reflect.any),
  (snd (Unchecked.Reserve r function l) = None <->
   reflect.KindOf (reflect.ValueOf function) = reflect.Func) /\
  (snd (Unchecked.Reserve r function l) = None ->
   fst (Unchecked.Reserve r function l) = r ++ [FunctionData function l]) /\
  (snd (Reserve r function l) = None ->
   Unchecked.Reserve r function l = Reserve r function l) /\
  (snd (Unchecked.Reserve r function l) <> None ->
   Reserve r function l = Unchecked.Reserve r function l).
Proof.
  intros r function l. unfold Unchecked.Reserve.
  destruct (reflect.Kind_eqb (reflect.KindOf (reflect.ValueOf function))
                             reflect.Func) eqn:Hk; simpl.
  - apply Kind_eqb_eq in Hk. split; [tauto|]. split; [auto|]. split.
    + intro H. destruct (Reserve_cases r function l);
        simpl in H; try discriminate H. reflexivity.
    + intro H. exfalso. apply H. reflexivity.
  - assert (Hn : reflect.KindOf (reflect.ValueOf function) <> reflect.Func).
    { intro H. apply Kind_eqb_eq in H. congruence. }
    split; [split; [discriminate | intro; contradiction]|].
    split; [discriminate|].
    destruct (Reserve_cases r function l) as
      [Hk' | t Hf Hl | t Hf Hl | t Hf Hl Hm | t Hf Hl Hm]; simpl;
      try (exfalso; apply Hn; eapply func_of_type_Kind; eauto; fail).
    split; [discriminate | reflexivity].
Qed.

Lemma Reserve_refines_unchecked_witness :
  Unchecked.Reserve [] Sample.sum [Sample.int_ 1; Sample.int_ 2]
  = Reserve [] Sample.sum [Sample.int_ 1; Sample.int_ 2].
Proof.
  apply (proj1 (proj2 (proj2 (@Reserve_refines_unchecked []
                                Sample.sum [Sample.int_ 1; Sample.int_ 2])))).
  reflexivity.
Defined.

Lemma set_index_middle : forall (pre : list reflect.any) y post x,
  Status.set_index (pre ++ y :: post) (length pre) x = pre ++ x :: post.
Proof.
  induction pre as [|z pre IH]; intros y post x; simpl.
  - reflexivity.
  - rewrite IH. reflexivity.
Qed.

Lemma convert_loop_copies : forall n (a : list reflect.any) i,
  length a = i + n ->
  Status.convert_loop a (firstn i a ++ repeat None n) i n = a.
Proof.
  induction n as [|n IH]; intros a i Hlen; simpl.
  - rewrite app_nil_r. apply firstn_all2. lia.
  - destruct (nth_error a i) as [x|] eqn:Ex.
    + assert (Hi : length (firstn i a) = i)
        by (rewrite length_firstn; lia).
      rewrite <- Hi at 2. rewrite set_index_middle.
      replace (firstn i a ++ x :: repeat None n)
        with (firstn (S i) a ++ repeat None n).
      * apply IH. lia.
      * clear - Ex. revert a Ex.
        induction i as [|i IHi]; intros [|y a] Ex; simpl in *;
          try discriminate Ex.
        -- injection Ex as ->. reflexivity.
        -- rewrite (IHi a Ex). reflexivity.
    + apply nth_error_None in Ex. lia.
Qed.

(** X15.  [convertInterfaceSlice] returns a slice with the elements of its
    argument, in the same order and as many. *)
Theorem convertInterfaceSlice_copies : forall l : list reflect.any,
  Status.convertInterfaceSlice l = l.
Proof.
  intro l. unfold Status.convertInterfaceSlice.
  apply (convert_loop_copies (length l) l 0). reflexivity.
Qed.

(** X16.  [Reserve] of the first version fails only on a value that is not
    a function, never with the error on [args]; otherwise it stores the
    function with the arguments as given, after the entries already there,
    and touches neither the WaitGroup nor the channel.  Its entries are
    those of the [Reserve] that does not validate. *)
Theorem Status_Reserve_stores :
  forall (s : Status.status) function (l : list reflect.any),
  snd (Status.Reserve s function l) <> Some Status.InvalidArgsArgument /\
  (snd (Status.Reserve s function l) = None <->
   reflect.KindOf (reflect.ValueOf function) = reflect.Func) /\
  Status.ReservedFunction (fst (Status.Reserve s function l))
  = fst (Unchecked.Reserve (Status.ReservedFunction s) function l) /\
  Status.wg (fst (Status.Reserve s function l)) = Status.wg s /\
  Status.signalCh (fst (Status.Reserve s function l)) = Status.signalCh s.
Proof.
  intros s function l. unfold Status.Reserve, Unchecked.Reserve.
  destruct (reflect.Kind_eqb (reflect.KindOf (reflect.ValueOf function))
                             reflect.Func) eqn:Hk; simpl.
  - apply Kind_eqb_eq in Hk.
    assert (Hcopy : Status.convertInterfaceSlice l = l)
      by exact (convert_loop_copies (length l) l 0 eq_refl).
    rewrite Hcopy.
    repeat split; auto; discriminate.
  - assert (Hn : reflect.KindOf (reflect.ValueOf function) <> reflect.Func).
    { intro H. apply Kind_eqb_eq in H. congruence. }
    repeat split; auto; try discriminate. intro; contradiction.
Qed.

Lemma Status_listen_spec : forall signals raised (s : Status.status),
  buf (Status.signalCh s) = [] ->
  closed (Status.signalCh s) = false ->
  cap (Status.signalCh s) = 1 ->
  match Status.listen signals s raised with
  | Some (s', rest) =>
      Status.wg s' = Status.wg s - 1 /\
      Status.ReservedFunction s' = Status.ReservedFunction s /\
      buf (Status.signalCh s') = [] /\
      exists pre sig,
        raised = pre ++ sig :: rest /\
        relays signals sig = true /\
        existsb (relays signals) pre = false
  | None => existsb (relays signals) raised = false
  end.
Proof.
  intros signals raised. induction raised as [|sig rest IH];
    intros [n [c b cl] r] Hb Hcl Hcap; simpl in *; subst b cl c.
  - reflexivity.
  - unfold Status.notify, try_send. simpl.
    destruct (relays signals sig) eqn:Hrel; simpl.
    + destruct rest as [|sig2 rest]; simpl;
        (split; [reflexivity|]; split; [reflexivity|];
         split; [reflexivity|];
         exists [], sig; simpl; auto).
    + specialize (IH (Status.MkStatus n (Chan 1 [] false) r)
                     eq_refl eq_refl eq_refl).
      destruct (Status.listen signals
                  (Status.MkStatus n (Chan 1 [] false) r) rest)
        as [[s' rest']|].
      * destruct IH as (Hw & Hr & Hb & pre & sg & Hraised & Hsg & Hpre).
        split; [assumption|]. split; [assumption|]. split; [assumption|].
        exists (sig :: pre), sg. simpl. rewrite Hrel, Hraised. auto.
      * assumption.
Qed.


Section StatusExecFacts.

Variable World : Type.
Variable callee : nat -> list reflect.Value -> World -> World * bool.

Lemma Status_Exec_range_exec : forall fds (w : World),
  Status.Exec_range callee fds w = (exec_range callee fds w, None).
Proof.
  induction fds as [|rf rest IH]; intro w; simpl.
  - reflexivity.
  - destruct (Call callee (reflect.ValueOf (function rf))
                   (map reflect.ValueOf (args rf)) w) as [[w1 m1] o1].
    destruct o1; try reflexivity.
    rewrite IH. destruct (exec_range callee rest w1) as [[w2 m2] o2].
    reflexivity.
Qed.

Lemma Status_Reserve_all_wg : forall requests (s : Status.status),
  Status.wg (Status.Reserve_all s requests) = Status.wg s.
Proof.
  induction requests as [|[f l] requests IH]; intro s; simpl.
  - reflexivity.
  - unfold Status.Reserve_all in *. simpl. rewrite IH.
    unfold Status.Reserve.
    destruct (reflect.Kind_eqb (reflect.KindOf (reflect.ValueOf f))
                               reflect.Func); reflexivity.
Qed.

End StatusExecFacts.

(** X18.  In the first version, once [New] has returned, [Exec] does not
    block, whatever was reserved in between: it makes the calls the
    dispatch of the later versions makes over the same entries, in the same
    order, and when no call panics it returns no error. *)
Theorem Status_Exec_after_New :
  forall (World : Type)
         (callee : nat -> list reflect.Value -> World -> World * bool)
         (signals raised rest : list Signal) (s : Status.status)
         (requests : list (reflect.any * list reflect.any)) (w : World),
  Status.New signals raised = Some (s, rest) ->
  Status.Exec callee (Status.Reserve_all s requests) w
  = Some (exec callee
               (Status.ReservedFunction (Status.Reserve_all s requests)) w,
          None).
Proof.
  intros World callee signals raised rest s requests w H.
  pose proof (@Status_listen_spec signals raised
                (Status.MkStatus (0 + 1) (make_chan 1) [])
                eq_refl eq_refl eq_refl) as Hs.
  unfold Status.New in H. simpl in H, Hs.
  rewrite H in Hs. destruct Hs as (Hwg & _). simpl in Hwg.
  unfold Status.Exec. rewrite Status_Reserve_all_wg, Hwg. simpl.
  rewrite Status_Exec_range_exec. reflexivity.
Qed.

Lemma Status_Exec_after_New_witness :
  Status.Exec Sample.quiet
    (Status.Reserve_all (Status.MkStatus 0 (Chan 1 [] false) [])
                        [(Sample.hello, [])]) tt
  = Some (exec Sample.quiet
               (Status.ReservedFunction
                  (Status.Reserve_all (Status.MkStatus 0 (Chan 1 [] false) [])
                                      [(Sample.hello, [])])) tt,
          None).
Proof.
  apply (@Status_Exec_after_New unit Sample.quiet [SIGINT]
           [SIGTERM; SIGINT; SIGINT] [SIGINT]
           (Status.MkStatus 0 (Chan 1 [] false) [])
           [(Sample.hello, [])] tt).
  reflexivity.
Defined.

(** X19.  The example program: its three calls of [Reserve] all store their
    entry, and when SIGINT or SIGTERM is raised afterwards one dispatch
    calls [sum(1, 2)], then [hello()], then [os.Exit(0)], provided [sum] and
    [hello] return. *)
Theorem example_main_dispatch :
  forall (World : Type)
         (callee : nat -> list reflect.Value -> World -> World * bool)
         (w : World) (sig : Signal),
  relays [SIGINT; SIGTERM] sig = true ->
  snd (callee 0 (map reflect.ValueOf [Sample.int_ 1; Sample.int_ 2]) w)
  = false ->
  snd (callee 1 []
         (fst (callee 0 (map reflect.ValueOf [Sample.int_ 1; Sample.int_ 2])
                      w))) = false ->
  exists p p',
    run callee Example.main (New [SIGINT; SIGTERM] w) = Some p /\
    reservedFunctions (tebata p)
    = [FunctionData Sample.sum [Sample.int_ 1; Sample.int_ 2];
       FunctionData Sample.hello [];
       FunctionData Example.os_Exit [Sample.int_ 0]] /\
    run callee [Raise sig; SelectSignal; RunExec] p = Some p' /\
    dispatches p' = 1 /\
    calls p' = map invocation_of (reservedFunctions (tebata p)).
Proof.
  intros World callee w sig Hrel Hsum Hhello.
  assert (Hs : sig = SIGINT \/ sig = SIGTERM)
    by (destruct sig; simpl in Hrel; auto; discriminate).
  assert (Hrun : forall s0, s0 = SIGINT \/ s0 = SIGTERM ->
            exists p',
              run callee [Raise s0; SelectSignal; RunExec]
                  (call_Reserve Example.os_Exit [Sample.int_ 0]
                     (call_Reserve Sample.hello []
                        (call_Reserve Sample.sum
                           [Sample.int_ 1; Sample.int_ 2]
                           (New [SIGINT; SIGTERM] w)))) = Some p' /\
              dispatches p' = 1 /\
              calls p' = map invocation_of
                (reservedFunctions
                   (tebata (call_Reserve Example.os_Exit [Sample.int_ 0]
                     (call_Reserve Sample.hello []
                        (call_Reserve Sample.sum
                           [Sample.int_ 1; Sample.int_ 2]
                           (New [SIGINT; SIGTERM] w))))))).
  { intros s0 Hs0.
    unfold run, fire, raise, call_Reserve, listen, listen_signal,
      listen_exec, exec. simpl.
    assert (Hr : (Signal_eqb s0 SIGINT || (Signal_eqb s0 SIGTERM || false))
                 = true) by (destruct Hs0; subst; reflexivity).
    rewrite Hr. simpl. unfold Call. simpl.
    destruct (callee 0 [reflect.Val reflect.TInt (Some 1);
                        reflect.Val reflect.TInt (Some 2)] w)
      as [w1 b1] eqn:E1.
    simpl in Hsum, Hhello. rewrite E1 in Hsum, Hhello. simpl in Hsum, Hhello.
    subst b1.
    destruct (callee 1 [] w1) as [w2 b2] eqn:E2. simpl in Hhello. subst b2.
    destruct (callee 8 [reflect.Val reflect.TInt (Some 0)] w2)
      as [w3 b3] eqn:E3.
    destruct b3; eexists; repeat split. }
  destruct (Hrun sig Hs) as (p' & Hp' & Hd & Hc).
  exists (call_Reserve Example.os_Exit [Sample.int_ 0]
            (call_Reserve Sample.hello []
               (call_Reserve Sample.sum [Sample.int_ 1; Sample.int_ 2]
                             (New [SIGINT; SIGTERM] w)))), p'.
  split; [reflexivity|]. split; [reflexivity|].
  split; [exact Hp'|]. split; assumption.
Qed.

Lemma example_main_dispatch_witness :
  exists p p',
    run Sample.quiet Example.main (New [SIGINT; SIGTERM] tt) = Some p /\
    reservedFunctions (tebata p)
    = [FunctionData Sample.sum [Sample.int_ 1; Sample.int_ 2];
       FunctionData Sample.hello [];
       FunctionData Example.os_Exit [Sample.int_ 0]] /\
    run Sample.quiet [Raise SIGINT; SelectSignal; RunExec] p = Some p' /\
    dispatches p' = 1 /\
    calls p' = map invocation_of (reservedFunctions (tebata p)).
Proof.
  apply (@example_main_dispatch unit Sample.quiet tt SIGINT); reflexivity.
Defined.


(* ------------------------------------------------------------------ *)
(** ** Order and extent of a dispatch *)
(* ------------------------------------------------------------------ *)

Section DispatchOrder.

Variable World : Type.
Variable callee : nat -> list reflect.Value -> World -> World * bool.



End DispatchOrder.



